(** * AlgoRhythm authentication form controller: validators and submission
      sequencer of [src/script.js] and [src/script-merged.js]

    The repository ships three iterations of the same [AuthManager] class:
    - [Fixed]  : first class of [src/script.js]  (lines 5-1227),
    - [Modern] : second class of [src/script.js] (lines 1264-2360),
    - [Merged] : the class of [src/script-merged.js].
    Functions whose body differs between the iterations take the iteration
    as their first argument. *)

From Stdlib Require Import NArith Ascii String List Bool Lia.
From stdpp Require Import gmap strings list.
Import ListNotations.

Local Open Scope N_scope.

(** ** JavaScript strings

    A JavaScript string is a sequence of UTF-16 code units; [length] and
    the regular expressions of the source (none has the [u] flag) work on
    code units. *)

Definition jsstring := list N.

(** An ASCII literal of the source as a sequence of code units. *)
Definition lit (s : string) : jsstring :=
  map N_of_ascii (list_ascii_of_string s).

(** ** Character classes used by the regular expressions of the source *)

Definition in_range (lo hi c : N) : bool := (lo <=? c) && (c <=? hi).

(** [[a-z]] *)
Definition is_lower (c : N) : bool := in_range 97 122 c.
(** [[A-Z]] *)
Definition is_upper (c : N) : bool := in_range 65 90 c.
(** [[0-9]] and [\d] *)
Definition is_digit (c : N) : bool := in_range 48 57 c.
(** [[^A-Za-z0-9]] *)
Definition is_symbol (c : N) : bool :=
  negb (is_upper c || is_lower c || is_digit c).

(** ECMAScript LineTerminator: LF, CR, U+2028, U+2029. *)
Definition is_line_terminator (c : N) : bool :=
  (c =? 10) || (c =? 13) || (c =? 8232) || (c =? 8233).

(** [.] without the [s] flag: any code unit but a line terminator. *)
Definition is_dot (c : N) : bool := negb (is_line_terminator c).

(** [\s], also the set removed by [String.prototype.trim]: ECMAScript
    WhiteSpace (TAB, VT, FF, SP, NBSP, ZWNBSP and category Zs) and
    LineTerminator. *)
Definition is_white_space (c : N) : bool :=
  in_range 9 13 c || (c =? 32) || (c =? 160) || (c =? 5760)
  || in_range 8192 8202 c || (c =? 8232) || (c =? 8233) || (c =? 8239)
  || (c =? 8287) || (c =? 12288) || (c =? 65279).

(** [[^\s@]] *)
Definition is_email_char (c : N) : bool :=
  negb (is_white_space c || (c =? 64)).

(** A literal letter under the [i] flag.  Without the [u] flag the
    canonical form of a code unit is its upper-case mapping, except that a
    code unit of 128 or more is never mapped below 128; a lower-case ASCII
    letter of the pattern therefore matches itself and its upper case. *)
Definition is_letter_i (p c : N) : bool := (c =? p) || (c =? p - 32).

(** ** Regular expressions

    The fragment of the pattern language that the source uses, with an
    executable matcher by derivatives. *)

Inductive regex : Type :=
| Void
| Eps
| Cls (p : N -> bool)
| Seq (r1 r2 : regex)
| Alt (r1 r2 : regex)
| Star (r : regex).

(** [r+] *)
Definition Plus (r : regex) : regex := Seq r (Star r).
(** a literal code unit *)
Definition Chr (a : N) : regex := Cls (N.eqb a).

Fixpoint nullable (r : regex) : bool :=
  match r with
  | Void => false
  | Eps => true
  | Cls _ => false
  | Seq r1 r2 => nullable r1 && nullable r2
  | Alt r1 r2 => nullable r1 || nullable r2
  | Star _ => true
  end.

Fixpoint deriv (c : N) (r : regex) : regex :=
  match r with
  | Void => Void
  | Eps => Void
  | Cls p => if p c then Eps else Void
  | Seq r1 r2 =>
      if nullable r1 then Alt (Seq (deriv c r1) r2) (deriv c r2)
      else Seq (deriv c r1) r2
  | Alt r1 r2 => Alt (deriv c r1) (deriv c r2)
  | Star r1 => Seq (deriv c r1) (Star r1)
  end.

(** Whole-string match: what [/^r$/.test(s)] computes. *)
Fixpoint matches (r : regex) (s : jsstring) : bool :=
  match s with
  | [] => nullable r
  | c :: t => matches (deriv c r) t
  end.

(** The language of a regular expression, as the pattern is read. *)
Inductive Lang : regex -> jsstring -> Prop :=
| LEps : Lang Eps []
| LCls p c : p c = true -> Lang (Cls p) [c]
| LSeq r1 r2 s1 s2 : Lang r1 s1 -> Lang r2 s2 -> Lang (Seq r1 r2) (s1 ++ s2)
| LAltL r1 r2 s : Lang r1 s -> Lang (Alt r1 r2) s
| LAltR r1 r2 s : Lang r2 s -> Lang (Alt r1 r2) s
| LStar0 r : Lang (Star r) []
| LStarS r s1 s2 : Lang r s1 -> Lang (Star r) s2 -> Lang (Star r) (s1 ++ s2).

(** Any code unit, line terminators included: the text around an
    unanchored match. *)
Definition any_rest : regex := Star (Cls (fun _ => true)).

(** An unanchored pattern: a block of positive lookaheads [(?=l)] followed
    by a body. *)
Record pattern : Type := Pattern {
  lookaheads : list regex;
  body : regex
}.

(** The pattern matches at the start of [t]. *)
Definition match_here (p : pattern) (t : jsstring) : bool :=
  forallb (fun l => matches (Seq l any_rest) t) (lookaheads p)
  && matches (Seq (body p) any_rest) t.

(** [RegExp.prototype.test] of a pattern without anchors and without the
    [g] or [y] flag: the pattern matches at some index of [s], the end
    included. *)
Fixpoint test (p : pattern) (s : jsstring) : bool :=
  match_here p s
  || match s with
     | [] => false
     | _ :: t => test p t
     end.

(** [/[a-z]/], [/[A-Z]/], [/[0-9]/], [/[^A-Za-z0-9]/] *)
Definition re_class (p : N -> bool) : pattern := Pattern [] (Cls p).

(** [(?=.*[cls])] for a class [cls] *)
Definition ahead (p : N -> bool) : regex := Seq (Star (Cls is_dot)) (Cls p).

(** [/(?=.*[a-z])(?=.*[A-Z])(?=.*\d)/] *)
Definition re_complexity : pattern :=
  Pattern [ahead is_lower; ahead is_upper; ahead is_digit] Eps.

(** [/^[^\s@]+@[^\s@]+\.[^\s@]+$/], between its anchors *)
Definition re_email : regex :=
  Seq (Plus (Cls is_email_char))
      (Seq (Chr 64)
           (Seq (Plus (Cls is_email_char))
                (Seq (Chr 46) (Plus (Cls is_email_char))))).

(** One alternative of the sequential-run pattern, from its three letters. *)
Definition word_i (w : string) : regex :=
  fold_right (fun c r => Seq (Cls (is_letter_i c)) r) Eps (lit w).

(** The alternatives of the sequential-run pattern, in the order of the
    source. *)
Definition sequential_words : list string :=
  ["abc"; "bcd"; "cde"; "def"; "efg"; "fgh"; "ghi"; "hij"; "ijk";
   "jkl"; "klm"; "lmn"; "mno"; "nop"; "opq"; "pqr"; "qrs"; "rst";
   "stu"; "tuv"; "uvw"; "vwx"; "wxy"; "xyz"]%string.

(** [/(?:abc|bcd|cde|...|wxy|xyz)/i] *)
Definition re_sequential : pattern :=
  Pattern [] (fold_right (fun w r => Alt (word_i w) r) Void sequential_words).

(** [/(.)\1{2,}/.test(s)]: a code unit matched by [.] is followed by at
    least two copies of itself.  The back-reference is outside [regex], so
    the test is written out. *)
Fixpoint test_repeated (s : jsstring) : bool :=
  match s with
  | a :: t =>
      match t with
      | b :: c :: _ => (is_dot a && (b =? a) && (c =? a)) || test_repeated t
      | _ => false
      end
  | [] => false
  end.

(** ** JavaScript values, exceptions and objects *)

(** The values a form snapshot holds: a field is a string, or [undefined]
    when the object has no such property. *)
Inductive jsval : Type :=
| VUndefined
| VStr (s : jsstring).

#[global] Instance jsval_eq_dec : EqDecision jsval.
Proof. solve_decision. Defined.

Inductive exn : Type :=
| TypeError (msg : string)
| ReferenceError (msg : string)
| Error (msg : string).

(** A computation that returns or throws. *)
Inductive result (A : Type) : Type :=
| Ok (a : A)
| Throw (e : exn).
Arguments Ok {A} a.
Arguments Throw {A} e.

Definition bind {A B : Type} (m : result A) (k : A -> result B) : result B :=
  match m with
  | Ok a => k a
  | Throw e => Throw e
  end.

Notation "'let*' x ':=' m 'in' k" := (bind m (fun x => k))
  (at level 10, x pattern, m at level 100, k at level 200).

(** ToString, as [RegExp.prototype.test] applies it to its argument. *)
Definition ToString (v : jsval) : jsstring :=
  match v with
  | VUndefined => lit "undefined"
  | VStr s => s
  end.

(** ToBoolean: [undefined] and the empty string are falsy. *)
Definition truthy (v : jsval) : bool :=
  match v with
  | VUndefined => false
  | VStr [] => false
  | VStr (_ :: _) => true
  end.

(** [v.length]; reading a property of [undefined] throws. *)
Definition js_length (v : jsval) : result N :=
  match v with
  | VUndefined => Throw (TypeError "Cannot read properties of undefined")
  | VStr s => Ok (N.of_nat (length s))
  end.

Fixpoint trim_start (s : jsstring) : jsstring :=
  match s with
  | c :: t => if is_white_space c then trim_start t else s
  | [] => []
  end.

(** [String.prototype.trim] *)
Definition trim (s : jsstring) : jsstring :=
  rev (trim_start (rev (trim_start s))).

(** [v.trim()] *)
Definition js_trim (v : jsval) : result jsval :=
  match v with
  | VUndefined => Throw (TypeError "Cannot read properties of undefined")
  | VStr s => Ok (VStr (trim s))
  end.

(** [a === b] *)
Definition strict_eq (a b : jsval) : bool := bool_decide (a = b).

(** [a || b] on values *)
Definition js_or (a b : jsval) : jsval := if truthy a then a else b.

(** A plain object built by [Object.fromEntries(formData)]; reading an
    absent property gives [undefined]. *)
Definition get (o : gmap string jsval) (k : string) : jsval :=
  default VUndefined (o !! k).

(** ** The document *)

(** An element, with the properties the controller reads or writes. *)
Record element : Type := Element {
  value : jsstring;
  textContent : string;
  ariaLive : option string
}.

(** The iterations of [AuthManager]. *)
Inductive variant : Type := Fixed | Modern | Merged.

(** What [showFieldError] does to the element it finds; [Merged] does
    not set [aria-live]. *)
Definition with_error (v : variant) (message : string) (errorElement : element)
    : element :=
  Element (value errorElement) message
    (match v with
     | Merged => ariaLive errorElement
     | _ => Some "polite"%string
     end).

(** What [clearFieldError] does to the element it finds. *)
Definition without_error (v : variant) (errorElement : element) : element :=
  Element (value errorElement) ""
    (match v with
     | Merged => ariaLive errorElement
     | _ => None
     end).

(** [showFieldError(elementId, message)]: an absent element is skipped. *)
Definition showFieldError (v : variant) (elementId message : string)
    (doc : gmap string element) : gmap string element :=
  match doc !! elementId with
  | Some errorElement => <[elementId := with_error v message errorElement]> doc
  | None => doc
  end.

(** [clearFieldError(elementId)] *)
Definition clearFieldError (v : variant) (elementId : string)
    (doc : gmap string element) : gmap string element :=
  match doc !! elementId with
  | Some errorElement => <[elementId := without_error v errorElement]> doc
  | None => doc
  end.

(** ** Field validators *)

(** [isValidEmail(email)] *)
Definition isValidEmail (email : jsval) : bool :=
  matches re_email (ToString email).

(** The object [validatePassword] returns; [message] is absent on
    success. *)
Record validation : Type := Validation {
  isValid : bool;
  message : option string
}.

Definition msg_required : string := "Password is required".
Definition msg_too_short : string :=
  "Password must be at least 8 characters long".
(** The third message differs between the two classes of [script.js]. *)
Definition msg_complexity (v : variant) : string :=
  match v with
  | Modern =>
      "Password must contain at least one uppercase letter, one lowercase letter, and one number"
  | _ => "Password must contain uppercase, lowercase, and number"
  end.

(** [validatePassword(password)]; [Merged] stops after the length check. *)
Definition validatePassword (v : variant) (password : jsval)
    : result validation :=
  if negb (truthy password) then
    Ok (Validation false (Some msg_required))
  else
    let* len := js_length password in
    if len <? 8 then
      Ok (Validation false (Some msg_too_short))
    else
      match v with
      | Merged => Ok (Validation true None)
      | _ =>
          if negb (test re_complexity (ToString password)) then
            Ok (Validation false (Some (msg_complexity v)))
          else Ok (Validation true None)
      end.

(** ** Password strength *)

Inductive band : Type := weak | fair | good | strong.

#[global] Instance band_eq_dec : EqDecision band.
Proof. solve_decision. Defined.

Record level : Type := Level {
  lmin : N;
  lmax : N;
  lband : band;
  ltext : string
}.

Definition levels : list level :=
  [ Level 0 2 weak "Weak password";
    Level 3 4 fair "Fair password";
    Level 5 6 good "Good password";
    Level 7 8 strong "Strong password" ].

(** [levels.find(level => score >= level.min && score <= level.max)
     || levels[0]] *)
Definition find_level (score : N) : level :=
  default (nth 0 levels (Level 0 0 weak ""))
    (find (fun l => (lmin l <=? score) && (score <=? lmax l)) levels).

(** The running [score] of [calculatePasswordStrength]: the six checks
    every iteration has, then the two pattern checks of [Modern]. *)
Definition password_score (v : variant) (password : jsval) : result N :=
  let score := 0 in
  let* len := js_length password in
  let score := if 8 <=? len then score + 1 else score in
  let* len := js_length password in
  let score := if 12 <=? len then score + 1 else score in
  let s := ToString password in
  let score := if test (re_class is_lower) s then score + 1 else score in
  let score := if test (re_class is_upper) s then score + 1 else score in
  let score := if test (re_class is_digit) s then score + 1 else score in
  let score := if test (re_class is_symbol) s then score + 1 else score in
  match v with
  | Modern =>
      let score := if negb (test_repeated s) then score + 1 else score in
      let score :=
        if negb (test re_sequential s) then score + 1 else score in
      Ok score
  | _ => Ok score
  end.

(** [calculatePasswordStrength(password)] *)
Definition calculatePasswordStrength (v : variant) (password : jsval)
    : result level :=
  let* score := password_score v password in
  Ok (find_level score).

(** ** Form validators *)

Definition msg_email : string := "Please enter a valid email address".
Definition msg_name : string :=
  "Please enter your full name (at least 2 characters)".
Definition msg_mismatch : string := "Passwords do not match".

(** [validateLoginForm(credentials)]: the flag returned and the document
    after the call. *)
Definition validateLoginForm (v : variant) (credentials : gmap string jsval)
    (doc : gmap string element) : result (bool * gmap string element) :=
  let email := get credentials "email" in
  let password := get credentials "password" in
  let ok := true in
  let '(ok, doc) :=
    if negb (isValidEmail email) then
      (false, showFieldError v "email-error" msg_email doc)
    else (ok, clearFieldError v "email-error" doc) in
  let* empty :=
    if negb (truthy password) then Ok true
    else let* len := js_length password in Ok (len <? 1) in
  let '(ok, doc) :=
    if empty then
      (false, showFieldError v "password-error" msg_required doc)
    else (ok, clearFieldError v "password-error" doc) in
  Ok (ok, doc).

(** [validateRegisterForm(userData)] *)
Definition validateRegisterForm (v : variant) (userData : gmap string jsval)
    (doc : gmap string element) : result (bool * gmap string element) :=
  let name := get userData "name" in
  let email := get userData "email" in
  let password := get userData "password" in
  let confirmPassword := get userData "confirmPassword" in
  let ok := true in
  let* bad_name :=
    if negb (truthy name) then Ok true
    else
      let* trimmed := js_trim name in
      let* len := js_length trimmed in
      Ok (len <? 2) in
  let '(ok, doc) :=
    if bad_name then (false, showFieldError v "name-error" msg_name doc)
    else (ok, clearFieldError v "name-error" doc) in
  let '(ok, doc) :=
    if negb (isValidEmail email) then
      (false, showFieldError v "register-email-error" msg_email doc)
    else (ok, clearFieldError v "register-email-error" doc) in
  let* passwordValidation := validatePassword v password in
  let '(ok, doc) :=
    if negb (isValid passwordValidation) then
      (false,
       showFieldError v "register-password-error"
         (default ""%string (message passwordValidation)) doc)
    else (ok, clearFieldError v "register-password-error" doc) in
  let '(ok, doc) :=
    if negb (strict_eq password confirmPassword) then
      (false, showFieldError v "confirm-password-error" msg_mismatch doc)
    else (ok, clearFieldError v "confirm-password-error" doc) in
  Ok (ok, doc).

(** [validatePasswordMatch()], fired on every input event of the confirm
    field.  [Fixed] reads the two inputs cached at start-up and [Merged]
    looks them up, both returning early when one is missing; [Modern]
    reads [this.registerPassword.value] unguarded. *)
Definition validatePasswordMatch (v : variant) (doc : gmap string element)
    : result (gmap string element) :=
  match doc !! "registerPassword"%string, doc !! "confirmPassword"%string with
  | Some passwordInput, Some confirmInput =>
      let password := VStr (value passwordInput) in
      let confirmPassword := VStr (value confirmInput) in
      if truthy confirmPassword && negb (strict_eq password confirmPassword)
      then Ok (showFieldError v "confirm-password-error" msg_mismatch doc)
      else Ok (clearFieldError v "confirm-password-error" doc)
  | _, _ =>
      match v with
      | Modern => Throw (TypeError "Cannot read properties of null")
      | _ => Ok doc
      end
  end.

(** ** The simulated authentication call *)

Inductive auth_type : Type := login | register.

Record user : Type := User {
  user_id : jsstring;
  user_email : jsval;
  user_name : jsval
}.

Record auth_response : Type := AuthResponse {
  success : bool;
  response_user : user;
  token : jsstring
}.

(** [authenticateUser(credentials, type)] of [Fixed] and [Modern], once its
    delay has elapsed.  [type] only selects the length of the delay, and
    [uuid] is what [crypto.randomUUID()] returns. *)
Definition authenticateUser (type : auth_type) (uuid : jsstring)
    (credentials : gmap string jsval) : result auth_response :=
  if strict_eq (get credentials "email") (VStr (lit "test@error.com")) then
    Throw (Error "Invalid credentials")
  else if strict_eq (get credentials "email") (VStr (lit "test@network.com"))
  then Throw (Error "Network connection failed")
  else
    Ok (AuthResponse true
          (User uuid (get credentials "email")
             (js_or (get credentials "name") (VStr (lit "User"))))
          (lit "mock-jwt-token")).

(** [Merged] has no [authenticateUser]: the call is simulated inside the
    handlers.  [handleLogin] waits and throws for one address;
    [handleRegister] only waits. *)
Definition merged_call (type : auth_type) (credentials : gmap string jsval)
    : result unit :=
  match type with
  | login =>
      if strict_eq (get credentials "email") (VStr (lit "test@error.com"))
      then Throw (Error "Invalid credentials")
      else Ok tt
  | register => Ok tt
  end.

(** ** The registration sequencer

    [handleRegister] is an async function: it runs up to its next [await]
    and is resumed by the event loop.  A state holds what outlives one
    turn of the loop; the presentation helpers are recorded in a log.
    Pending tasks may be resumed in any order, which covers every order
    the durations of the timers allow. *)

Inductive effect : Type :=
| EConsoleLog (msg : string)
| EValidate (userData : gmap string jsval)
| ESetButtonLoading (loading : bool)
| EAuthCall (userData : gmap string jsval)
| ESetButtonSuccess
| EShowSuccessModal (msg : string)
| EUncaught (e : exn).

Inductive callback : Type :=
| ResetFlag     (* () => { this.registrationInProgress = false; } *)
| LogSuccess.   (* () => { console.log(...); } *)

(** What the event loop still has to run. *)
Inductive task : Type :=
| AwaitAuth (userData : gmap string jsval)
| AwaitDelay (ms : N)
| Timeout (ms : N) (cb : callback).

Record mstate : Type := MState {
  registrationInProgress : bool;
  doc : gmap string element;
  pending : list task;
  log : list effect
}.

Inductive event : Type :=
| Submit (userData : gmap string jsval)
| Resume (i : nat) (uuid : jsstring).

(** [updateStatus(elementId, message)] *)
Definition updateStatus (elementId message : string)
    (d : gmap string element) : gmap string element :=
  match d !! elementId with
  | Some el => <[elementId := Element (value el) message (ariaLive el)]> d
  | None => d
  end.

Definition is_in_flight (t : task) : bool :=
  match t with
  | AwaitAuth _ | AwaitDelay _ => true
  | Timeout _ _ => false
  end.

(** A registration attempt has started its simulated call and has not
    completed. *)
Definition in_flight (st : mstate) : bool := existsb is_in_flight (pending st).

Definition is_validate (e : effect) : bool :=
  match e with EValidate _ => true | _ => false end.
Definition is_auth_call (e : effect) : bool :=
  match e with EAuthCall _ => true | _ => false end.

Definition count (p : effect -> bool) (st : mstate) : nat :=
  length (filter (fun e => p e = true) (log st)).

Module FixedSequencer.

(** The [finally] block: the flag is reset one second later. *)
Definition finally (st : mstate) : mstate :=
  MState (registrationInProgress st) (doc st)
    (pending st ++ [Timeout 1000 ResetFlag]) (log st).

(** The [catch] block.  [submitBtn] is declared with [const] inside the
    [try] block, so (the page defining no global of that name) evaluating
    the arguments of [handleAuthError] in the [catch] block throws before
    anything is shown; the [finally] block still runs and the promise of
    the handler is rejected. *)
Definition catch (st : mstate) : mstate :=
  finally
    (MState (registrationInProgress st) (doc st) (pending st)
       (log st ++ [EUncaught (ReferenceError "submitBtn is not defined")])).

(** [handleRegister(e)] up to its first [await]; [userData] is the
    snapshot of the form carried by the event. *)
Definition handleRegister (userData : gmap string jsval) (st : mstate)
    : mstate :=
  let st :=
    MState (registrationInProgress st) (doc st) (pending st)
      (log st ++ [EConsoleLog "Handling registration..."]) in
  if registrationInProgress st then
    MState (registrationInProgress st) (doc st) (pending st)
      (log st ++ [EConsoleLog "Registration already in progress, ignoring..."])
  else
    let st := MState true (doc st) (pending st) (log st) in
    match validateRegisterForm Fixed userData (doc st) with
    | Throw _ =>
        catch (MState true (doc st) (pending st)
                 (log st ++ [EValidate userData]))
    | Ok (false, d) =>
        finally (MState true d (pending st) (log st ++ [EValidate userData]))
    | Ok (true, d) =>
        MState true
          (updateStatus "register-status" "Creating account..." d)
          (pending st ++ [AwaitAuth userData])
          (log st ++ [EValidate userData; ESetButtonLoading true;
                      EAuthCall userData])
    end.

(** The event loop resumes the [i]-th pending task. *)
Definition resume (i : nat) (uuid : jsstring) (st : mstate) : mstate :=
  match pending st !! i with
  | None => st
  | Some t =>
      let st :=
        MState (registrationInProgress st) (doc st) (delete i (pending st))
          (log st) in
      match t with
      | AwaitAuth userData =>
          match authenticateUser register uuid userData with
          | Ok result =>
              if success result then
                MState (registrationInProgress st)
                  (updateStatus "register-status"
                     "Account created successfully" (doc st))
                  (pending st ++ [AwaitDelay 2000])
                  (log st ++ [ESetButtonSuccess;
                              EShowSuccessModal "Welcome to AlgoRhythm!"])
              else finally st
          | Throw _ => catch st
          end
      | AwaitDelay _ =>
          finally
            (MState (registrationInProgress st) (doc st) (pending st)
               (log st ++ [EConsoleLog "Registration successful"]))
      | Timeout _ ResetFlag =>
          MState false (doc st) (pending st) (log st)
      | Timeout _ LogSuccess =>
          MState (registrationInProgress st) (doc st) (pending st)
            (log st ++ [EConsoleLog "Registration successful"])
      end
  end.

Definition step (st : mstate) (ev : event) : mstate :=
  match ev with
  | Submit userData => handleRegister userData st
  | Resume i uuid => resume i uuid st
  end.

(** The controller after start-up: the flag is not set yet. *)
Definition init (d : gmap string element) : mstate := MState false d [] [].

Definition run (d : gmap string element) (evs : list event) : mstate :=
  fold_left step evs (init d).

(** What the flag stands for in every state the controller reaches: the
    flag is down and nothing is pending, or it is up and exactly one task
    is pending, an attempt in flight or the timer that lowers the flag. *)
Definition Inv (st : mstate) : Prop :=
  (registrationInProgress st = false /\ pending st = [])
  \/ (registrationInProgress st = true
      /\ exists t, pending st = [t]
                   /\ (is_in_flight t = true \/ t = Timeout 1000 ResetFlag)).

End FixedSequencer.

Module MergedSequencer.

(** [handleRegister(e)] of [script-merged.js] up to its [await]. *)
Definition handleRegister (userData : gmap string jsval) (st : mstate)
    : mstate :=
  let st :=
    MState (registrationInProgress st) (doc st) (pending st)
      (log st ++ [EConsoleLog "Handling registration..."]) in
  match validateRegisterForm Merged userData (doc st) with
  | Throw e =>
      MState (registrationInProgress st) (doc st) (pending st)
        (log st ++ [EValidate userData; EUncaught e])
  | Ok (false, d) =>
      MState (registrationInProgress st) d (pending st)
        (log st ++ [EValidate userData])
  | Ok (true, d) =>
      MState (registrationInProgress st) d
        (pending st ++ [AwaitDelay 2000])
        (log st ++ [EValidate userData; ESetButtonLoading true;
                    EAuthCall userData])
  end.

Definition resume (i : nat) (st : mstate) : mstate :=
  match pending st !! i with
  | None => st
  | Some t =>
      let st :=
        MState (registrationInProgress st) (doc st) (delete i (pending st))
          (log st) in
      match t with
      | AwaitDelay _ =>
          MState (registrationInProgress st) (doc st)
            (pending st ++ [Timeout 2000 LogSuccess])
            (log st ++ [ESetButtonSuccess;
                        EShowSuccessModal "Welcome to AlgoRhythm!"])
      | Timeout _ LogSuccess =>
          MState (registrationInProgress st) (doc st) (pending st)
            (log st ++ [EConsoleLog "Registration successful"])
      | _ => st
      end
  end.

Definition step (st : mstate) (ev : event) : mstate :=
  match ev with
  | Submit userData => handleRegister userData st
  | Resume i _ => resume i st
  end.

Definition init (d : gmap string element) : mstate := MState false d [] [].

Definition run (d : gmap string element) (evs : list event) : mstate :=
  fold_left step evs (init d).

End MergedSequencer.

(** ** The specification's reading of the checks

    The definitions below follow the wording of the specification; the
    theorems compare them with the functions above. *)

(** "contains all of a lowercase letter, an uppercase letter, and a
    digit" *)
Definition contains_all (s : jsstring) : bool :=
  existsb is_lower s && existsb is_upper s && existsb is_digit s.

(** The string holds no line terminator. *)
Definition single_line (s : jsstring) : bool := forallb is_dot s.



Definition b2n (b : bool) : N := if b then 1 else 0.

(** "a run of 3+ repeated characters" *)
Fixpoint has_repeated_run (s : jsstring) : bool :=
  match s with
  | a :: t =>
      match t with
      | b :: c :: _ => ((b =? a) && (c =? a)) || has_repeated_run t
      | _ => false
      end
  | [] => false
  end.

(** The position of a letter in the alphabet, in either case. *)
Definition letter_index (c : N) : option N :=
  if is_lower c then Some (c - 97)
  else if is_upper c then Some (c - 65)
  else None.

(** Three letters that follow one another in the alphabet. *)
Definition consecutive_letters (a b c : N) : bool :=
  match letter_index a, letter_index b, letter_index c with
  | Some i, Some j, Some k => (j =? i + 1) && (k =? i + 2)
  | _, _, _ => false
  end.

(** "a sequential-letter run" *)
Fixpoint has_sequential_run (s : jsstring) : bool :=
  match s with
  | a :: t =>
      match t with
      | b :: c :: _ => consecutive_letters a b c || has_sequential_run t
      | _ => false
      end
  | [] => false
  end.

(** The three letters that start at position [k] of the alphabet. *)
Definition letters_from (k : N) : jsstring := [97 + k; 98 + k; 99 + k].

(** The checks of the strength score, one point each. *)
Definition spec_checks (v : variant) (s : jsstring) : list bool :=
  [ 8 <=? N.of_nat (length s);
    12 <=? N.of_nat (length s);
    existsb is_lower s;
    existsb is_upper s;
    existsb is_digit s;
    existsb is_symbol s ]
  ++ match v with
     | Modern => [ negb (has_repeated_run s); negb (has_sequential_run s) ]
     | _ => []
     end.

Definition spec_score (v : variant) (s : jsstring) : N :=
  fold_right (fun b n => b2n b + n) 0 (spec_checks v s).

(** "0-2 weak, 3-4 fair, 5-6 good, 7-8 strong, with any out-of-range score
    defaulting to weak" *)
Definition spec_band (score : N) : band :=
  if score <=? 2 then weak
  else if score <=? 4 then fair
  else if score <=? 6 then good
  else if score <=? 8 then strong
  else weak.

(** "weak < fair < good < strong" *)
Definition band_rank (b : band) : N :=
  match b with
  | weak => 0
  | fair => 1
  | good => 2
  | strong => 3
  end.

(** The four character classes of the score. *)
Inductive char_class : Type := Lowercase | Uppercase | Digit | Symbol.

Definition in_class (k : char_class) : N -> bool :=
  match k with
  | Lowercase => is_lower
  | Uppercase => is_upper
  | Digit => is_digit
  | Symbol => is_symbol
  end.

Definition class_of (c : N) : char_class :=
  if is_lower c then Lowercase
  else if is_upper c then Uppercase
  else if is_digit c then Digit
  else Symbol.

(** The score the code computes on a string, as a sum. *)
Definition score_sum (v : variant) (s : jsstring) : N :=
  b2n (8 <=? N.of_nat (length s)) + b2n (12 <=? N.of_nat (length s))
  + b2n (existsb is_lower s) + b2n (existsb is_upper s)
  + b2n (existsb is_digit s) + b2n (existsb is_symbol s)
  + match v with
    | Modern => b2n (negb (test_repeated s)) + b2n (negb (test re_sequential s))
    | _ => 0
    end.

(** The four checks of [validateRegisterForm], as the specification lists
    them. *)
Definition name_ok (userData : gmap string jsval) : bool :=
  match get userData "name" with
  | VStr s => 2 <=? N.of_nat (length (trim s))
  | VUndefined => false
  end.

Definition email_ok (userData : gmap string jsval) : bool :=
  isValidEmail (get userData "email").

Definition password_ok (v : variant) (userData : gmap string jsval) : bool :=
  match validatePassword v (get userData "password") with
  | Ok r => isValid r
  | Throw _ => false
  end.

Definition password_message (v : variant) (userData : gmap string jsval)
    : string :=
  match validatePassword v (get userData "password") with
  | Ok r => default ""%string (message r)
  | Throw _ => ""%string
  end.

Definition confirm_ok (userData : gmap string jsval) : bool :=
  bool_decide (get userData "password" = get userData "confirmPassword").

(** [t] is [s] without its leading and trailing white space, stated
    without [trim]: [s] is [t] between two runs of white space, and [t]
    neither starts nor ends with white space. *)
Definition is_trim_of (s t : jsstring) : Prop :=
  exists l r,
    s = l ++ t ++ r
    /\ forallb is_white_space l = true
    /\ forallb is_white_space r = true
    /\ (forall c u, t = c :: u -> is_white_space c = false)
    /\ (forall u c, t = u ++ [c] -> is_white_space c = false).

(** The state of an error slot after a check. *)
Definition slot_after (v : variant) (passed : bool) (msg : string)
    (slot : option element) : option element :=
  (if passed then without_error v else with_error v msg) <$> slot.

(** ** Sample snapshots and documents *)

(** A registration snapshot that passes the four checks. *)
Definition register_valid : gmap string jsval :=
  <["name"%string := VStr (lit "Jo")]>
    (<["email"%string := VStr (lit "a@b.co")]>
       (<["password"%string := VStr (lit "Abcdefg1")]>
          (<["confirmPassword"%string := VStr (lit "Abcdefg1")]> ∅))).

(** The same with the confirmation left empty. *)
Definition register_unconfirmed : gmap string jsval :=
  <["confirmPassword"%string := VStr []]> register_valid.

(** A login snapshot whose e-mail has no dot after the [@]. *)
Definition login_bad_email : gmap string jsval :=
  <["email"%string := VStr (lit "a@b")]>
    (<["password"%string := VStr (lit "secret")]> ∅).

(** A login snapshot without [email] property. *)
Definition login_without_email : gmap string jsval :=
  <["password"%string := VStr (lit "secret")]> ∅.

(** A document whose password slot still shows an earlier error. *)
Definition stale_password_slot : gmap string element :=
  <["password-error"%string :=
      Element [] "Password is required" (Some "polite"%string)]> ∅.

Definition empty_email_slot : gmap string element :=
  <["email-error"%string := Element [] "" None]> ∅.

(** The registration form while the user has typed a password and not yet
    its confirmation, the mismatch slot still showing an earlier error. *)
Definition typing_document : gmap string element :=
  <["registerPassword"%string := Element (lit "Abcdefg1") "" None]>
    (<["confirmPassword"%string := Element [] "" None]>
       (<["confirm-password-error"%string :=
            Element [] msg_mismatch (Some "polite"%string)]> ∅)).

(** The four error slots of the registration form, all clear. *)
Definition register_slots : gmap string element :=
  <["name-error"%string := Element [] "" None]>
    (<["register-email-error"%string := Element [] "" None]>
       (<["register-password-error"%string := Element [] "" None]>
          (<["confirm-password-error"%string := Element [] "" None]> ∅))).

(** A registration snapshot that fails the four checks. *)
Definition register_all_wrong : gmap string jsval :=
  <["name"%string := VStr (lit " J ")]>
    (<["email"%string := VStr (lit "a b@c.com")]>
       (<["password"%string := VStr (lit "short")]>
          (<["confirmPassword"%string := VStr (lit "other")]> ∅))).

(** The four slots after a submit of [register_all_wrong] in the first
    class of [script.js]. *)
Definition register_slots_reported : gmap string element :=
  <["name-error"%string := Element [] msg_name (Some "polite"%string)]>
    (<["register-email-error"%string :=
         Element [] msg_email (Some "polite"%string)]>
       (<["register-password-error"%string :=
            Element [] msg_too_short (Some "polite"%string)]>
          (<["confirm-password-error"%string :=
               Element [] msg_mismatch (Some "polite"%string)]> ∅))).

(** * The rest of the controller *)

(** The error slots each form validator writes. *)
Definition login_slots : list string :=
  ["email-error"; "password-error"]%string.

Definition register_slot_ids : list string :=
  ["name-error"; "register-email-error"; "register-password-error";
   "confirm-password-error"]%string.

(** One check of a form validator, as it acts on the document: the slot
    is cleared when the check passes and shows the message otherwise. *)
Definition write_slot (v : variant) (passed : bool) (elementId msg : string)
    (d : gmap string element) : gmap string element :=
  if passed then clearFieldError v elementId d
  else showFieldError v elementId msg d.

(** The snapshot passes the four checks of [validateRegisterForm]. *)
Definition register_ok (v : variant) (userData : gmap string jsval) : bool :=
  name_ok userData && email_ok userData && password_ok v userData
  && confirm_ok userData.

(** An effect of the log is legitimate: a simulated call is recorded only
    for a snapshot that passes validation. *)
Definition validated (v : variant) (e : effect) : Prop :=
  match e with
  | EAuthCall userData => register_ok v userData = true
  | _ => True
  end.

(** ** Classification of an authentication failure *)

(** [s.startsWith(sub)] *)
Fixpoint starts_with (sub s : jsstring) : bool :=
  match sub, s with
  | [], _ => true
  | a :: sub', b :: s' => (a =? b) && starts_with sub' s'
  | _ :: _, [] => false
  end.

(** [s.includes(sub)] *)
Fixpoint includes (s sub : jsstring) : bool :=
  starts_with sub s
  || match s with
     | [] => false
     | _ :: t => includes t sub
     end.

Definition msg_auth_generic : string :=
  "Authentication failed. Please try again.".

(** The two classes of [script.js] word the two messages differently. *)
Definition msg_auth_network (v : variant) : string :=
  match v with
  | Modern => "Network error. Please check your connection and try again."
  | _ => "Network error. Please check your connection."
  end.

Definition msg_auth_credentials (v : variant) : string :=
  match v with
  | Modern => "Invalid credentials. Please check your email and password."
  | _ => "Invalid credentials. Please check your details."
  end.

(** The message [handleAuthError(error, button)] of [script.js] shows,
    from [error.message]. *)
Definition auth_error_message (v : variant) (message : jsstring) : string :=
  let msg := msg_auth_generic in
  if includes message (lit "network") || includes message (lit "Network")
  then msg_auth_network v
  else if includes message (lit "credentials")
          || includes message (lit "Invalid")
  then msg_auth_credentials v
  else msg.

(** [error.message] *)
Definition error_message (e : exn) : string :=
  match e with
  | TypeError msg | ReferenceError msg | Error msg => msg
  end.

(** ** [debounce] and [throttle]

    Each call of [debounce(func, wait)] or [throttle(func, limit)] returns
    a closure over one variable.  The state below is that variable, the
    timers the closure has set and that have not fired, and the calls of
    [func] so far. *)

Record debounced (A : Type) : Type := Debounced {
  db_timeout : option nat;       (* let timeout; *)
  db_timers : list (nat * A);    (* pending: the id and the args of [later] *)
  db_next : nat;                 (* the id the next setTimeout returns *)
  db_calls : list A              (* func(...args), in order *)
}.
Arguments Debounced {A}.
Arguments db_timeout {A}.
Arguments db_timers {A}.
Arguments db_next {A}.
Arguments db_calls {A}.

(** [clearTimeout(id)]; an id that is [undefined] or not pending is
    ignored. *)
Definition clearTimeout {A : Type} (id : option nat) (timers : list (nat * A))
    : list (nat * A) :=
  match id with
  | None => timers
  | Some i => filter (fun t => t.1 <> i) timers
  end.

(** A call of the debounced function: the pending timer is cleared and a
    new one is set. *)
Definition debounce_call {A : Type} (args : A) (st : debounced A)
    : debounced A :=
  let timers := clearTimeout (db_timeout st) (db_timers st) in
  Debounced (Some (db_next st)) (timers ++ [(db_next st, args)])
    (S (db_next st)) (db_calls st).

(** The timer [id] fires and runs [later]. *)
Definition debounce_fire {A : Type} (id : nat) (st : debounced A)
    : debounced A :=
  match find (fun t => bool_decide (t.1 = id)) (db_timers st) with
  | None => st
  | Some (_, args) =>
      let timers := filter (fun t => t.1 <> id) (db_timers st) in
      Debounced (db_timeout st) (clearTimeout (db_timeout st) timers)
        (db_next st) (db_calls st ++ [args])
  end.

Inductive timer_event (A : Type) : Type :=
| Call (args : A)
| Fire (id : nat).
Arguments Call {A} args.
Arguments Fire {A} id.

Definition debounce_step {A : Type} (st : debounced A) (ev : timer_event A)
    : debounced A :=
  match ev with
  | Call args => debounce_call args st
  | Fire id => debounce_fire id st
  end.

(** The closure as [debounce] returns it. *)
Definition debounce_init {A : Type} : debounced A := Debounced None [] 0 [].

Definition debounce_run {A : Type} (evs : list (timer_event A))
    : debounced A :=
  fold_left debounce_step evs debounce_init.

(** The arguments of the calls among the events. *)
Definition call_args {A : Type} (evs : list (timer_event A)) : list A :=
  omap (fun ev => match ev with Call a => Some a | Fire _ => None end) evs.

Record throttled (A : Type) : Type := Throttled {
  th_inThrottle : bool;          (* let inThrottle; *)
  th_timers : list nat;          (* pending timers, by id *)
  th_next : nat;
  th_calls : list A
}.
Arguments Throttled {A}.
Arguments th_inThrottle {A}.
Arguments th_timers {A}.
Arguments th_next {A}.
Arguments th_calls {A}.

(** A call of the throttled function. *)
Definition throttle_call {A : Type} (args : A) (st : throttled A)
    : throttled A :=
  if negb (th_inThrottle st) then
    Throttled true (th_timers st ++ [th_next st]) (S (th_next st))
      (th_calls st ++ [args])
  else st.

(** The timer [id] fires: [inThrottle = false]. *)
Definition throttle_fire {A : Type} (id : nat) (st : throttled A)
    : throttled A :=
  if bool_decide (id ∈ th_timers st) then
    Throttled false (filter (fun i => i <> id) (th_timers st)) (th_next st)
      (th_calls st)
  else st.

Definition throttle_step {A : Type} (st : throttled A) (ev : timer_event A)
    : throttled A :=
  match ev with
  | Call args => throttle_call args st
  | Fire id => throttle_fire id st
  end.

Definition throttle_init {A : Type} : throttled A := Throttled false [] 0 [].

Definition throttle_run {A : Type} (evs : list (timer_event A))
    : throttled A :=
  fold_left throttle_step evs throttle_init.

(** ** Real-time validation of one input *)

(** An input element, with what [validateInput] and
    [togglePasswordVisibility] read or write; [input_label] is the text of
    the [label] whose [for] is the id of the input, when the page has
    one. *)
Record input : Type := Input {
  input_id : string;
  input_name : string;
  input_type : string;
  input_value : jsstring;
  input_required : bool;
  input_placeholder : string;
  input_label : option string;
  input_ariaInvalid : option string
}.

(** [getFieldLabel(input)] *)
Definition getFieldLabel (i : input) : string :=
  match input_label i with
  | Some text => text
  | None =>
      if bool_decide (input_placeholder i = ""%string) then input_name i
      else input_placeholder i
  end.

(** [input.setAttribute('aria-invalid', b)] *)
Definition set_ariaInvalid (b : bool) (i : input) : input :=
  Input (input_id i) (input_name i) (input_type i) (input_value i)
    (input_required i) (input_placeholder i) (input_label i)
    (Some (if b then "true" else "false")%string).

(** [validateInput(input)].  Only the first class of [script.js] accepts a
    missing input; [script-merged.js] has no password branch; the second
    class of [script.js] also reports in [errorElement], the element its
    two [getElementById] lookups (lines 1605-1606) have found, if any.
    The other two build the message and drop it. *)
Definition validateInput (v : variant) (i : option input)
    (errorElement : option string) (d : gmap string element)
    : result (bool * option input * gmap string element) :=
  match i with
  | None =>
      match v with
      | Fixed => Ok (true, None, d)
      | _ => Throw (TypeError "Cannot read properties of null")
      end
  | Some i =>
      let value := trim (input_value i) in
      let type := input_type i in
      let* verdict :=
        if input_required i && negb (truthy (VStr value)) then
          Ok (false, (getFieldLabel i ++ " is required")%string)
        else if bool_decide (type = "email"%string) && truthy (VStr value)
                && negb (isValidEmail (VStr value))
        then Ok (false, msg_email)
        else if match v with Merged => false | _ => true end
                && bool_decide (type = "password"%string)
                && truthy (VStr value)
        then
          let* validation := validatePassword v (VStr value) in
          if negb (isValid validation) then
            Ok (false, default ""%string (message validation))
          else Ok (true, ""%string)
        else Ok (true, ""%string) in
      let '(ok, message) := verdict in
      let d :=
        match v, errorElement with
        | Modern, Some errorId =>
            if ok then clearFieldError v errorId d
            else showFieldError v errorId message d
        | _, _ => d
        end in
      Ok (ok, Some (set_ariaInvalid (negb ok) i), d)
  end.

(** ** The password visibility toggle *)

(** Replacing [item] by [replacement] in an ordered set: the first of the
    two takes the place, every other one is removed. *)
Fixpoint ordered_set_replace (item replacement : string) (l : list string)
    : list string :=
  match l with
  | [] => []
  | x :: t =>
      if bool_decide (x = item \/ x = replacement) then
        replacement
        :: filter (fun y => y <> item /\ y <> replacement) t
      else x :: ordered_set_replace item replacement t
  end.

(** [classList.replace(token, newToken)] *)
Definition classList_replace (token newToken : string) (l : list string)
    : list string :=
  if bool_decide (token ∈ l) then ordered_set_replace token newToken l else l.

(** What a click on a toggle reaches: the input next to it, the class list
    of its icon, and its own [aria-label]. *)
Record toggle : Type := Toggle {
  toggle_input : option input;
  toggle_icon : option (list string);
  toggle_ariaLabel : option string
}.

Definition set_type (type : string) (i : input) : input :=
  Input (input_id i) (input_name i) type (input_value i)
    (input_required i) (input_placeholder i) (input_label i)
    (input_ariaInvalid i).

(** [togglePasswordVisibility(e)], [togglePassword(e)] in
    [script-merged.js]; the second class of [script.js] does not test
    what it has found. *)
Definition togglePasswordVisibility (v : variant) (t : toggle)
    : result toggle :=
  match toggle_input t, toggle_icon t with
  | Some i, Some icon =>
      if bool_decide (input_type i = "password"%string) then
        Ok (Toggle (Some (set_type "text" i))
              (Some (classList_replace "fa-eye" "fa-eye-slash" icon))
              (Some "Hide password"%string))
      else
        Ok (Toggle (Some (set_type "password" i))
              (Some (classList_replace "fa-eye-slash" "fa-eye" icon))
              (Some "Show password"%string))
  | _, _ =>
      match v with
      | Modern => Throw (TypeError "Cannot read properties of null")
      | _ => Ok t
      end
  end.

(** [sub] occurs in [m]. *)
Definition occurs (sub : string) (m : jsstring) : Prop :=
  exists pre post, m = pre ++ lit sub ++ post.

(** [l] with every [a] turned into [b]. *)
Definition rename_token (a b : string) (l : list string) : list string :=
  map (fun x => if bool_decide (x = a) then b else x) l.

(** The password field of the registration form, and a toggle next to
    it. *)
Definition sample_password_input : input :=
  Input "registerPassword" "password" "password" (lit "Abcdefg1") true
    "Password" None None.

Definition sample_toggle : toggle :=
  Toggle (Some sample_password_input) (Some ["fas"; "fa-eye"]%string)
    (Some "Show password"%string).

(** What every reachable state of a debounced function satisfies: at most
    one timer is pending, it is the one [timeout] names, and the calls of
    [func] so far, followed by the arguments the pending timer holds, are
    among the arguments received, in order. *)
Definition debounce_inv {A : Type} (received : list A) (st : debounced A)
    : Prop :=
  (db_timers st = [] /\ sublist (db_calls st) received)
  \/ (exists id a,
        db_timers st = [(id, a)] /\ db_timeout st = Some id
        /\ exists before, received = before ++ [a]
                          /\ sublist (db_calls st) before).

(** What every reachable state of a throttled function satisfies. *)
Definition throttle_inv {A : Type} (received : list A) (st : throttled A)
    : Prop :=
  ((th_inThrottle st = false /\ th_timers st = [])
   \/ (th_inThrottle st = true /\ exists id, th_timers st = [id]))
  /\ sublist (th_calls st) received.

(** The verdict of [validatePassword] on a string. *)
Definition accepts (v : variant) (s : jsstring) : bool :=
  match validatePassword v (VStr s) with
  | Ok r => isValid r
  | Throw _ => false
  end.

(** A password field that holds a one-letter password, with its toggle. *)
Definition weak_password_toggle : toggle :=
  Toggle
    (Some (Input "registerPassword" "password" "password" (lit "x") true
             "Password" None None))
    (Some ["fas"; "fa-eye"]%string) (Some "Show password"%string).

(** ** Toasts *)

(** A toast node: its type (the class next to [toast]), its message, and
    whether it has the class [show]. *)
Record toast : Type := Toast {
  toast_id : nat;
  toast_type : string;
  toast_message : string;
  toast_show : bool
}.

(** The callbacks [showToast] leaves behind, each for one toast. *)
Inductive toast_task : Type :=
| AnimationFrame (id : nat)   (* requestAnimationFrame: add [show] *)
| HideToast (id : nat)        (* setTimeout(..., 4000): remove [show] *)
| RemoveToast (id : nat).     (* setTimeout(..., 300): removeChild *)

(** The toast container with its children, if the page has one, and the
    callbacks that have not run. *)
Record toast_host : Type := ToastHost {
  toastContainer : option (list toast);
  next_toast : nat;
  toast_tasks : list toast_task
}.

(** [showToast(message, type)].  Without a container the first class of
    [script.js] warns and returns, the second reads
    [this.toastContainer.appendChild] and throws, and [script-merged.js]
    creates the container. *)
Definition showToast (v : variant) (message type : string) (h : toast_host)
    : result toast_host :=
  let* children :=
    match toastContainer h, v with
    | Some children, _ => Ok (Some children)
    | None, Fixed => Ok None
    | None, Modern => Throw (TypeError "Cannot read properties of null")
    | None, Merged => Ok (Some [])
    end in
  match children with
  | None => Ok h
  | Some children =>
      let id := next_toast h in
      Ok (ToastHost (Some (children ++ [Toast id type message false]))
            (S id)
            (toast_tasks h ++ [AnimationFrame id; HideToast id]))
  end.

Definition set_show (id : nat) (show : bool) (children : list toast)
    : list toast :=
  map (fun t =>
         if bool_decide (toast_id t = id) then
           Toast (toast_id t) (toast_type t) (toast_message t) show
         else t) children.

(** The [i]-th pending callback runs. *)
Definition toast_fire (i : nat) (h : toast_host) : toast_host :=
  match toast_tasks h !! i with
  | None => h
  | Some t =>
      let tasks := delete i (toast_tasks h) in
      match t with
      | AnimationFrame id =>
          ToastHost (set_show id true <$> toastContainer h) (next_toast h)
            tasks
      | HideToast id =>
          ToastHost (set_show id false <$> toastContainer h) (next_toast h)
            (tasks ++ [RemoveToast id])
      | RemoveToast id =>
          ToastHost
            (filter (fun t => toast_id t <> id) <$> toastContainer h)
            (next_toast h) tasks
      end
  end.

Inductive toast_event : Type :=
| ShowToast (message type : string)
| ToastFire (i : nat).

(** A call of [showToast] that throws leaves the host as it was. *)
Definition toast_step (v : variant) (h : toast_host) (ev : toast_event)
    : toast_host :=
  match ev with
  | ShowToast message type =>
      match showToast v message type h with
      | Ok h' => h'
      | Throw _ => h
      end
  | ToastFire i => toast_fire i h
  end.

(** The toasts on the page. *)
Definition toasts (h : toast_host) : list toast :=
  default [] (toastContainer h).

(** The callback will take the toast [id] off the page, at once or after
    one more timer. *)
Definition removes (id : nat) (t : toast_task) : Prop :=
  t = HideToast id \/ t = RemoveToast id.

(** Every toast on the page has a callback pending that removes it. *)
Definition toasts_covered (h : toast_host) : Prop :=
  forall t, t ∈ toasts h -> exists k, k ∈ toast_tasks h /\ removes (toast_id t) k.

(** [handleForgotPassword(e)], on the login e-mail input of the document.
    A missing input is an error toast in the first class of [script.js],
    reads as an empty address in the second, and ends the handler in
    [script-merged.js]. *)
Definition handleForgotPassword (v : variant) (d : gmap string element)
    (h : toast_host) : result toast_host :=
  match d !! "loginEmail"%string, v with
  | None, Fixed => showToast v "Email field not found" "error" h
  | None, Merged => Ok h
  | loginEmail, _ =>
      let email :=
        match loginEmail with
        | Some el => VStr (value el)
        | None => VUndefined
        end in
      if negb (truthy email) then
        showToast v "Please enter your email address first" "warning" h
      else if negb (isValidEmail email) then
        showToast v "Please enter a valid email address" "error" h
      else showToast v "Password reset link sent to your email!" "success" h
  end.

(** ** The login handler *)

(** The submit button of the login form. *)
Record button : Type := Button {
  btn_loading : bool;             (* has the class [loading] *)
  btn_disabled : bool;
  btn_ariaBusy : option string;
  btn_background : string         (* style.background *)
}.

(** The success modal. *)
Record modal : Type := Modal {
  modal_show : bool;              (* has the class [show] *)
  modal_ariaHidden : option string
}.

(** [setButtonLoading(button, loading)]; [script-merged.js] leaves
    [aria-busy] alone. *)
Definition setButtonLoading (v : variant) (loading : bool)
    (b : option button) : option button :=
  match b with
  | None => None
  | Some b =>
      Some (Button loading loading
              (match v with
               | Merged => btn_ariaBusy b
               | _ => Some (if loading then "true" else "false")%string
               end)
              (btn_background b))
  end.

Definition success_background : string :=
  "linear-gradient(135deg, var(--color-success), #059669)".

(** What [setButtonSuccess(button)] does to the button at once; the
    [disabled] property is not written. *)
Definition with_success (v : variant) (b : button) : button :=
  Button false (btn_disabled b)
    (match v with
     | Merged => btn_ariaBusy b
     | _ => Some "false"%string
     end)
    success_background.

Inductive login_task : Type :=
| LoginCall (credentials : gmap string jsval)
| LoginPause          (* await this.delay(2000) *)
| ClearBackground     (* setTimeout(() => button.style.background = '', 3000) *)
| LogLogin.           (* setTimeout(() => console.log(...), 2000) *)

Record page : Type := Page {
  page_doc : gmap string element;
  page_button : option button;
  page_modal : option modal;
  page_toasts : toast_host;
  page_location : option string;
  page_tasks : list login_task;
  page_uncaught : list exn
}.

(** [setButtonSuccess(button)] *)
Definition setButtonSuccess (v : variant) (p : page) : page :=
  match page_button p with
  | None => p
  | Some b =>
      Page (page_doc p) (Some (with_success v b)) (page_modal p)
        (page_toasts p) (page_location p)
        (page_tasks p ++ [ClearBackground]) (page_uncaught p)
  end.

(** [showSuccessModal(message)].  [script-merged.js] returns before it
    writes the message when the page has no modal, and does not write
    [aria-hidden]. *)
Definition showSuccessModal (v : variant) (message : string) (p : page)
    : page :=
  match v, page_modal p with
  | Merged, None => p
  | Merged, Some m =>
      Page (updateStatus "successMessage" message (page_doc p))
        (page_button p) (Some (Modal true (modal_ariaHidden m)))
        (page_toasts p) (page_location p) (page_tasks p) (page_uncaught p)
  | _, m =>
      Page (updateStatus "successMessage" message (page_doc p))
        (page_button p)
        ((fun _ => Modal true (Some "false"%string)) <$> m)
        (page_toasts p) (page_location p) (page_tasks p) (page_uncaught p)
  end.

Definition with_doc (f : gmap string element -> gmap string element)
    (p : page) : page :=
  Page (f (page_doc p)) (page_button p) (page_modal p) (page_toasts p)
    (page_location p) (page_tasks p) (page_uncaught p).

Definition with_button (f : option button -> option button) (p : page)
    : page :=
  Page (page_doc p) (f (page_button p)) (page_modal p) (page_toasts p)
    (page_location p) (page_tasks p) (page_uncaught p).

Definition with_task (t : login_task) (p : page) : page :=
  Page (page_doc p) (page_button p) (page_modal p) (page_toasts p)
    (page_location p) (page_tasks p ++ [t]) (page_uncaught p).

(** [handleLogin(e)] up to its [await]; [credentials] is the snapshot of
    the form. *)
Definition handleLogin (v : variant) (credentials : gmap string jsval)
    (p : page) : page :=
  match validateLoginForm v credentials (page_doc p) with
  | Throw e =>
      Page (page_doc p) (page_button p) (page_modal p) (page_toasts p)
        (page_location p) (page_tasks p) (page_uncaught p ++ [e])
  | Ok (false, d) => with_doc (fun _ => d) p
  | Ok (true, d) =>
      let p := with_doc (fun _ => d) p in
      let p := with_button (setButtonLoading v true) p in
      let p :=
        match v with
        | Merged => p
        | _ => with_doc (updateStatus "login-status" "Signing in...") p
        end in
      with_task (LoginCall credentials) p
  end.

(** The [catch] block of [handleLogin] in [script.js]:
    [handleAuthError(error, submitBtn)], then the status region.  When
    [showToast] throws, the status region is not reached. *)
Definition login_failed (v : variant) (e : exn) (p : page) : page :=
  let p := with_button (setButtonLoading v false) p in
  match showToast v (auth_error_message v (lit (error_message e))) "error"
          (page_toasts p) with
  | Ok h =>
      Page
        (updateStatus "login-status"
           ("Login failed: " ++ error_message e)%string (page_doc p))
        (page_button p) (page_modal p) h (page_location p) (page_tasks p)
        (page_uncaught p)
  | Throw thrown =>
      Page (page_doc p) (page_button p) (page_modal p) (page_toasts p)
        (page_location p) (page_tasks p) (page_uncaught p ++ [thrown])
  end.

(** The event loop resumes the [i]-th pending task of the login form. *)
Definition login_resume (v : variant) (i : nat) (uuid : jsstring) (p : page)
    : page :=
  match page_tasks p !! i with
  | None => p
  | Some t =>
      let p :=
        Page (page_doc p) (page_button p) (page_modal p) (page_toasts p)
          (page_location p) (delete i (page_tasks p)) (page_uncaught p) in
      match t with
      | LoginCall credentials =>
          match v with
          | Merged =>
              match merged_call login credentials with
              | Throw e =>
                  let p := with_button (setButtonLoading v false) p in
                  match showToast v (error_message e) "error"
                          (page_toasts p) with
                  | Ok h =>
                      Page (page_doc p) (page_button p) (page_modal p) h
                        (page_location p) (page_tasks p) (page_uncaught p)
                  | Throw thrown =>
                      Page (page_doc p) (page_button p) (page_modal p)
                        (page_toasts p) (page_location p) (page_tasks p)
                        (page_uncaught p ++ [thrown])
                  end
              | Ok _ =>
                  let p := setButtonSuccess v p in
                  let p :=
                    showSuccessModal v "Welcome back to AlgoRhythm!" p in
                  with_task LogLogin p
              end
          | _ =>
              match authenticateUser login uuid credentials with
              | Throw e => login_failed v e p
              | Ok result =>
                  if success result then
                    let p := setButtonSuccess v p in
                    let p :=
                      showSuccessModal v "Welcome back to AlgoRhythm!" p in
                    let p :=
                      with_doc
                        (updateStatus "login-status" "Login successful") p in
                    with_task LoginPause p
                  else p
              end
          end
      | LoginPause =>
          match v with
          | Modern =>
              Page (page_doc p) (page_button p) (page_modal p)
                (page_toasts p) (Some "/dashboard"%string) (page_tasks p)
                (page_uncaught p)
          | _ => p
          end
      | ClearBackground =>
          with_button
            (fmap (fun b =>
                     Button (btn_loading b) (btn_disabled b)
                       (btn_ariaBusy b) "")) p
      | LogLogin => p
      end
  end.

Inductive page_event : Type :=
| LoginSubmit (credentials : gmap string jsval)
| LoginResume (i : nat) (uuid : jsstring)
| PageToast (i : nat).

Definition page_step (v : variant) (p : page) (ev : page_event) : page :=
  match ev with
  | LoginSubmit credentials => handleLogin v credentials p
  | LoginResume i uuid => login_resume v i uuid p
  | PageToast i =>
      Page (page_doc p) (page_button p) (page_modal p)
        (toast_fire i (page_toasts p)) (page_location p) (page_tasks p)
        (page_uncaught p)
  end.

(** The e-mail of the snapshot is none of the addresses for which the
    simulated login call of the class fails. *)
Definition not_sentinel (v : variant) (credentials : gmap string jsval)
    : Prop :=
  get credentials "email" <> VStr (lit "test@error.com")
  /\ match v with
     | Merged => True
     | _ => get credentials "email" <> VStr (lit "test@network.com")
     end.

(** A login snapshot that passes validation, and a page for it. *)
Definition login_valid : gmap string jsval :=
  <["email"%string := VStr (lit "user@example.com")]>
    (<["password"%string := VStr (lit "secret")]> ∅).

Definition login_page : page :=
  Page
    (<["login-status"%string := Element [] "" None]>
       (<["successMessage"%string := Element [] "" None]> ∅))
    (Some (Button false false None ""))
    (Some (Modal false (Some "true"%string)))
    (ToastHost (Some []) 0 []) None [] [].

(** A login snapshot with the address that fails with invalid
    credentials. *)
Definition login_rejected : gmap string jsval :=
  <["email"%string := VStr (lit "test@error.com")]>
    (<["password"%string := VStr (lit "secret")]> ∅).

Definition page_run (v : variant) (p : page) (evs : list page_event) : page :=
  fold_left (page_step v) evs p.

Definition toast_run (v : variant) (h : toast_host) (evs : list toast_event)
    : toast_host :=
  fold_left (toast_step v) evs h.

(** The snapshot passes [validateLoginForm]. *)
Definition login_ok (credentials : gmap string jsval) : bool :=
  isValidEmail (get credentials "email")
  && truthy (get credentials "password").

(** The login e-mail input of the document holds a valid address. *)
Definition valid_login_email (d : gmap string element) : bool :=
  match d !! "loginEmail"%string with
  | Some el => isValidEmail (VStr (value el))
  | None => false
  end.

(** A page whose login e-mail input holds a valid address. *)
Definition forgot_page : gmap string element :=
  <["loginEmail"%string := Element (lit "a@b.co") "" None]> ∅.

(** Some submit among the events passes validation. *)
Definition some_valid_submit (evs : list page_event) : bool :=
  existsb (fun ev => match ev with
                     | LoginSubmit c => login_ok c
                     | _ => false
                     end) evs.

(** Every submit among the events is for an address the simulated call
    accepts. *)
Definition no_sentinel_submit (v : variant) (evs : list page_event) : Prop :=
  forall c, In (LoginSubmit c) evs -> not_sentinel v c.

(** A pending task of the login form is legitimate. *)
Definition call_validated (t : login_task) : Prop :=
  match t with
  | LoginCall c => login_ok c = true
  | _ => True
  end.

Definition call_accepted (v : variant) (t : login_task) : Prop :=
  match t with
  | LoginCall c => not_sentinel v c
  | _ => True
  end.

(** What holds of the button along a run without failing call: before the
    first valid submit nothing is pending and the button is as it was;
    from the first valid submit on the button, if any, is disabled. *)
Definition button_inv (v : variant) (p0 : page) (submitted : bool) (p : page)
    : Prop :=
  Forall (call_accepted v) (page_tasks p)
  /\ if submitted then
       btn_disabled <$> page_button p = (fun _ => true) <$> page_button p0
     else page_tasks p = [] /\ page_button p = page_button p0.

(** ** Start-up of [script-merged.js] *)

(** What [setup] finds in the page: the elements it looks up by id, and
    how many nodes its three selectors match. *)
Record scaffold : Type := Scaffold {
  sc_container : bool;
  sc_registerBtn : bool;
  sc_loginBtn : bool;
  sc_loginForm : bool;
  sc_registerForm : bool;
  sc_forgotPassword : bool;
  sc_registerPassword : bool;
  sc_confirmPassword : bool;
  sc_social : nat;          (* .social-btn *)
  sc_toggles : nat;         (* .password-toggle *)
  sc_required : nat         (* input[required] *)
}.

(** The node a listener is attached to. *)
Inductive target : Type :=
| ById (id : string)
| SocialBtn (k : nat)
| PasswordToggle (k : nat)
| RequiredInput (k : nat).

(** The calls of [addEventListener] so far, and whether the fallback panel
    and the timer of the "ready" toast have been set up. *)
Record startup : Type := Startup {
  listeners : list (target * string);
  fallback_shown : bool;
  ready_toast : bool
}.

(** [setupEventListeners()]: the listeners it has attached when it
    returns or throws.  Reading [addEventListener] of a missing element
    throws. *)
Definition setupEventListeners (sc : scaffold)
    : list (target * string) * option exn :=
  let null := Some (TypeError "Cannot read properties of null") in
  if negb (sc_registerBtn sc) then ([], null)
  else
    let ls := [(ById "registerBtn", "click"%string)] in
    if negb (sc_loginBtn sc) then (ls, null)
    else
      let ls := ls ++ [(ById "loginBtn", "click"%string)] in
      if negb (sc_loginForm sc) then (ls, null)
      else
        let ls := ls ++ [(ById "loginForm", "submit"%string)] in
        if negb (sc_registerForm sc) then (ls, null)
        else
          let ls := ls ++ [(ById "registerForm", "submit"%string)] in
          let ls :=
            ls ++ map (fun k => (SocialBtn k, "click"%string))
                    (seq 0 (sc_social sc)) in
          let ls :=
            ls ++ map (fun k => (PasswordToggle k, "click"%string))
                    (seq 0 (sc_toggles sc)) in
          let ls :=
            if sc_forgotPassword sc then
              ls ++ [(ById "forgotPassword", "click"%string)]
            else ls in
          (ls, None).

(** [setupFormValidation()] *)
Definition setupFormValidation (sc : scaffold) : list (target * string) :=
  flat_map (fun k => [(RequiredInput k, "blur"%string);
                      (RequiredInput k, "input"%string)])
    (seq 0 (sc_required sc))
  ++ (if sc_registerPassword sc then
        [(ById "registerPassword", "input"%string)] else [])
  ++ (if sc_confirmPassword sc then
        [(ById "confirmPassword", "input"%string)] else []).

(** [setup()]: every error of its [try] block ends in
    [showFallbackError()]. *)
Definition setup (sc : scaffold) : startup :=
  if negb (sc_container sc) || negb (sc_registerBtn sc)
     || negb (sc_loginBtn sc)
  then Startup [] true false
  else
    match setupEventListeners sc with
    | (ls, Some _) => Startup ls true false
    | (ls, None) => Startup (ls ++ setupFormValidation sc) false true
    end.

(** The five elements without which [setup] ends in the fallback. *)
Definition critical_present (sc : scaffold) : bool :=
  sc_container sc && sc_registerBtn sc && sc_loginBtn sc
  && sc_loginForm sc && sc_registerForm sc.

(** A registration snapshot that passes validation and whose call fails
    with invalid credentials, and a page with the status region of the
    registration form. *)
Definition register_rejected : gmap string jsval :=
  <["email"%string := VStr (lit "test@error.com")]> register_valid.

Definition register_status_page : gmap string element :=
  <["register-status"%string := Element [] "" None]> ∅.

(** * Properties *)

(** ** The matcher computes the language of the pattern *)

Section RegexTheory.

Lemma Lang_Void_inv s : Lang Void s -> False.
Proof. intros H; inversion H. Qed.

Lemma Lang_Eps_inv s : Lang Eps s -> s = [].
Proof. intros H; by inversion H. Qed.

Lemma Lang_Cls_inv p s : Lang (Cls p) s -> exists c, s = [c] /\ p c = true.
Proof. intros H; inversion H; subst; eauto. Qed.

Lemma Lang_Seq_inv r1 r2 s :
  Lang (Seq r1 r2) s ->
  exists s1 s2, s = s1 ++ s2 /\ Lang r1 s1 /\ Lang r2 s2.
Proof. intros H; inversion H; subst; eauto. Qed.

Lemma Lang_Alt_inv r1 r2 s : Lang (Alt r1 r2) s -> Lang r1 s \/ Lang r2 s.
Proof. intros H; inversion H; subst; eauto. Qed.

Lemma Lang_Seq_cons r1 r2 c s1 s2 :
  Lang r1 (c :: s1) -> Lang r2 s2 -> Lang (Seq r1 r2) (c :: s1 ++ s2).
Proof.
  intros H1 H2. change (c :: s1 ++ s2) with ((c :: s1) ++ s2).
  by constructor.
Qed.

Lemma Lang_Seq_nil r1 r2 s : Lang r1 [] -> Lang r2 s -> Lang (Seq r1 r2) s.
Proof.
  intros H1 H2. change s with ([] ++ s). by constructor.
Qed.

Lemma nullable_Lang r : nullable r = true <-> Lang r [].
Proof.
  induction r as [| |p|r1 IH1 r2 IH2|r1 IH1 r2 IH2|r IH]; simpl.
  - split; [discriminate | intros H; inversion H].
  - split; [constructor | reflexivity].
  - split; [discriminate | intros H; inversion H].
  - rewrite andb_true_iff, IH1, IH2. split.
    + intros [H1 H2]. by apply Lang_Seq_nil.
    + intros H. apply Lang_Seq_inv in H as (s1 & s2 & E & H1 & H2).
      symmetry in E. apply app_eq_nil in E as [-> ->]. by split.
  - rewrite orb_true_iff, IH1, IH2. split.
    + intros [H|H]; [by apply LAltL | by apply LAltR].
    + apply Lang_Alt_inv.
  - split; [constructor | reflexivity].
Qed.

Lemma Lang_Star_cons r c s :
  Lang (Star r) (c :: s) ->
  exists s1 s2, s = s1 ++ s2 /\ Lang r (c :: s1) /\ Lang (Star r) s2.
Proof.
  intros H. remember (Star r) as r' eqn:Er. remember (c :: s) as cs eqn:Es.
  revert s Es.
  induction H as [| | | | | |r0 s1 s2 H1 _ H2 IH2]; try discriminate.
  injection Er as ->. intros s Es.
  destruct s1 as [|a s1]; simpl in Es.
  - by apply IH2.
  - injection Es as -> <-. by exists s1, s2.
Qed.

Lemma deriv_Lang r : forall c s, Lang (deriv c r) s <-> Lang r (c :: s).
Proof.
  induction r as [| |p|r1 IH1 r2 IH2|r1 IH1 r2 IH2|r IH]; intros c s; simpl.
  - split; intros H; inversion H.
  - split; intros H; inversion H.
  - destruct (p c) eqn:Hp; split; intros H.
    + apply Lang_Eps_inv in H as ->. by constructor.
    + apply Lang_Cls_inv in H as (a & [= -> ->] & _). constructor.
    + by apply Lang_Void_inv in H.
    + apply Lang_Cls_inv in H as (a & [= -> ->] & Ha). congruence.
  - assert (Hseq : Lang (Seq (deriv c r1) r2) s ->
                   Lang (Seq r1 r2) (c :: s)).
    { intros H. apply Lang_Seq_inv in H as (s1 & s2 & -> & H1 & H2).
      apply IH1 in H1. by apply Lang_Seq_cons. }
    assert (Hinv : Lang (Seq r1 r2) (c :: s) ->
                   Lang (Seq (deriv c r1) r2) s
                   \/ (Lang r1 [] /\ Lang r2 (c :: s))).
    { intros H. apply Lang_Seq_inv in H as (s1 & s2 & E & H1 & H2).
      destruct s1 as [|a s1]; simpl in E.
      - right. subst. by split.
      - injection E as <- ->. left. constructor; [by apply IH1 | done]. }
    destruct (nullable r1) eqn:Hn.
    + split.
      * intros H. apply Lang_Alt_inv in H as [H|H]; [by apply Hseq |].
        apply Lang_Seq_nil; [by apply nullable_Lang | by apply IH2].
      * intros H. apply Hinv in H as [H|[_ H]].
        -- by apply LAltL.
        -- apply LAltR. by apply IH2.
    + split; [apply Hseq |].
      intros H. apply Hinv in H as [H|[H _]]; [done |].
      apply nullable_Lang in H. congruence.
  - split; intros H; apply Lang_Alt_inv in H as [H|H].
    + apply LAltL. by apply IH1.
    + apply LAltR. by apply IH2.
    + apply LAltL. by apply IH1.
    + apply LAltR. by apply IH2.
  - split.
    + intros H. apply Lang_Seq_inv in H as (s1 & s2 & -> & H1 & H2).
      apply IH in H1. change (c :: s1 ++ s2) with ((c :: s1) ++ s2).
      by constructor.
    + intros H. apply Lang_Star_cons in H as (s1 & s2 & -> & H1 & H2).
      constructor; [by apply IH | done].
Qed.

Lemma matches_Lang s : forall r, matches r s = true <-> Lang r s.
Proof.
  induction s as [|c s IH]; intros r; simpl.
  - apply nullable_Lang.
  - rewrite IH. apply deriv_Lang.
Qed.

(** The text after a match is unconstrained. *)
Lemma Lang_any_rest s : Lang any_rest s.
Proof.
  induction s as [|c s IH]; [constructor |].
  change (c :: s) with ([c] ++ s). constructor; [by constructor | done].
Qed.

Lemma Lang_star_cls p t : Lang (Star (Cls p)) t <-> forallb p t = true.
Proof.
  split.
  - intros H. remember (Star (Cls p)) as r eqn:Er.
    induction H as [| | | | | |r0 s1 s2 H1 _ H2 IH2]; try discriminate;
      [done |].
    injection Er as ->. apply Lang_Cls_inv in H1 as (c & -> & Hc). simpl.
    rewrite IH2 by done. by rewrite Hc.
  - induction t as [|c t IH]; simpl; [constructor |].
    rewrite andb_true_iff. intros [Hc Ht].
    change (c :: t) with ([c] ++ t). constructor; [by constructor | auto].
Qed.

Lemma Lang_plus_cls p s :
  Lang (Plus (Cls p)) s <-> s <> [] /\ forallb p s = true.
Proof.
  unfold Plus. split.
  - intros H. apply Lang_Seq_inv in H as (s1 & s2 & -> & H1 & H2).
    apply Lang_Cls_inv in H1 as (c & -> & Hc). simpl.
    apply Lang_star_cls in H2. split; [done |]. by rewrite Hc, H2.
  - intros [Hne Hall]. destruct s as [|c t]; [done |]. simpl in Hall.
    apply andb_true_iff in Hall as [Hc Ht].
    change (c :: t) with ([c] ++ t).
    constructor; [by constructor | by apply Lang_star_cls].
Qed.

(** A class pattern matches at the start of [t] when [t] starts with a
    code unit of the class. *)
Lemma match_here_class p t :
  match_here (re_class p) t = match t with c :: _ => p c | [] => false end.
Proof.
  unfold match_here, re_class; simpl lookaheads; simpl body.
  cbn [forallb andb].
  destruct t as [|c t]; [done |].
  destruct (p c) eqn:Hp.
  - apply matches_Lang. change (c :: t) with ([c] ++ t).
    constructor; [by constructor | apply Lang_any_rest].
  - apply not_true_is_false. intros H. apply matches_Lang in H.
    apply Lang_Seq_inv in H as (s1 & s2 & E & H1 & H2).
    apply Lang_Cls_inv in H1 as (a & -> & Ha). simpl in E.
    injection E as -> _. congruence.
Qed.

(** [/[cls]/.test(s)]: some code unit of [s] is in the class. *)
Lemma test_class p s : test (re_class p) s = existsb p s.
Proof.
  induction s as [|c s IH]; cbn [test]; rewrite match_here_class;
    [done |].
  by rewrite IH.
Qed.

End RegexTheory.

(** ** The complexity pattern of [validatePassword] *)

Section Complexity.

(** [(?=.*[cls])] holds at the start of [t] when a code unit of the
    class is reached from there without crossing a line terminator. *)
Lemma ahead_here p t :
  matches (Seq (ahead p) any_rest) t = true <->
  exists pre c post,
    t = pre ++ c :: post /\ forallb is_dot pre = true /\ p c = true.
Proof.
  rewrite matches_Lang. unfold ahead. split.
  - intros H. apply Lang_Seq_inv in H as (s1 & post & -> & H1 & _).
    apply Lang_Seq_inv in H1 as (pre & s2 & -> & Hpre & Hc).
    apply Lang_Cls_inv in Hc as (c & -> & Hc).
    apply Lang_star_cls in Hpre.
    exists pre, c, post. by rewrite <- app_assoc.
  - intros (pre & c & post & -> & Hpre & Hc).
    change (pre ++ c :: post) with (pre ++ [c] ++ post).
    rewrite app_assoc. constructor; [| apply Lang_any_rest].
    constructor; [by apply Lang_star_cls | by constructor].
Qed.

Lemma ahead_here_existsb p t :
  matches (Seq (ahead p) any_rest) t = true -> existsb p t = true.
Proof.
  intros (pre & c & post & -> & _ & Hc)%ahead_here.
  rewrite existsb_app. simpl. rewrite Hc. by rewrite orb_true_r.
Qed.


Lemma match_here_complexity t :
  match_here re_complexity t
  = matches (Seq (ahead is_lower) any_rest) t
    && matches (Seq (ahead is_upper) any_rest) t
    && matches (Seq (ahead is_digit) any_rest) t.
Proof.
  unfold match_here, re_complexity. cbn [lookaheads body forallb].
  assert (matches (Seq Eps any_rest) t = true) as ->.
  { apply matches_Lang, Lang_Seq_nil; [constructor | apply Lang_any_rest]. }
  by rewrite !andb_true_r, andb_assoc.
Qed.

Lemma contains_all_cons c s :
  contains_all s = true -> contains_all (c :: s) = true.
Proof.
  unfold contains_all. rewrite !andb_true_iff. simpl.
  intros [[-> ->] ->]. by rewrite !orb_true_r.
Qed.

(** The pattern only succeeds on a string that has the three classes. *)
Lemma test_complexity_sound s :
  test re_complexity s = true -> contains_all s = true.
Proof.
  induction s as [|c s IH]; cbn [test]; rewrite match_here_complexity.
  - rewrite orb_false_r, !andb_true_iff. intros [[H _] _].
    by apply ahead_here_existsb in H.
  - rewrite orb_true_iff, !andb_true_iff. intros [[[H1 H2] H3]|H].
    + unfold contains_all.
      by rewrite (ahead_here_existsb _ _ H1), (ahead_here_existsb _ _ H2),
        (ahead_here_existsb _ _ H3).
    + by apply contains_all_cons, IH.
Qed.









End Complexity.

(** ** [validatePassword] *)


(** [validatePassword] never throws: the length is read only after the
    truthiness test. *)
Lemma validatePassword_total v password :
  exists r, validatePassword v password = Ok r.
Proof.
  unfold validatePassword. destruct password as [|[|c s]]; simpl; eauto.
  destruct (_ <? 8); eauto.
  destruct v; eauto; destruct (negb _); eauto.
Qed.




(** The lookaheads of [script.js] use [.], which stops at a line
    terminator: the three classes must occur on one line.  Here they are
    split by U+2028. *)
Example validatePassword_line_terminator :
  let s := lit "abcdefg" ++ [8232] ++ lit "A1" in
  contains_all s = true
  /\ validatePassword Fixed (VStr s)
     = Ok (Validation false (Some (msg_complexity Fixed))).
Proof. split; reflexivity. Qed.

(** The examples of the specification. *)
Example validatePassword_short :
  validatePassword Fixed (VStr (lit "short"))
  = Ok (Validation false (Some msg_too_short)).
Proof. reflexivity. Qed.

(** ** [isValidEmail] *)

Lemma Lang_Chr a s : Lang (Chr a) s <-> s = [a].
Proof.
  unfold Chr. split.
  - intros (c & -> & Hc)%Lang_Cls_inv. apply N.eqb_eq in Hc. by subst.
  - intros ->. constructor. apply N.eqb_refl.
Qed.

(** The strings of the e-mail pattern: a local part, [@], a domain part,
    a dot and a last part, the three parts non-empty and free of white
    space and of [@]. *)
Lemma Lang_re_email s :
  Lang re_email s <->
  exists l d t,
    s = l ++ 64 :: d ++ 46 :: t
    /\ l <> [] /\ d <> [] /\ t <> []
    /\ forallb is_email_char l = true
    /\ forallb is_email_char d = true
    /\ forallb is_email_char t = true.
Proof.
  unfold re_email. split.
  - intros H.
    apply Lang_Seq_inv in H as (l & s1 & -> & Hl & H).
    apply Lang_Seq_inv in H as (a & s2 & -> & ->%Lang_Chr & H).
    apply Lang_Seq_inv in H as (d & s3 & -> & Hd & H).
    apply Lang_Seq_inv in H as (b & t & -> & ->%Lang_Chr & Ht).
    apply Lang_plus_cls in Hl as [? ?], Hd as [? ?], Ht as [? ?].
    by exists l, d, t.
  - intros (l & d & t & -> & ? & ? & ? & ? & ? & ?).
    constructor; [by apply Lang_plus_cls |].
    change (64 :: d ++ 46 :: t) with ([64] ++ d ++ [46] ++ t).
    constructor; [by apply Lang_Chr |].
    constructor; [by apply Lang_plus_cls |].
    constructor; [by apply Lang_Chr | by apply Lang_plus_cls].
Qed.

(** C7.  [isValidEmail(s)] is true exactly when [s] is in the language of
    [^[^\s@]+@[^\s@]+\.[^\s@]+$]; it accepts "a@b.co" and rejects "a@b",
    "a b@c.com" and the empty string. *)
Theorem isValidEmail_pattern :
  (forall s : jsstring, isValidEmail (VStr s) = true <-> Lang re_email s)
  /\ (forall s : jsstring,
        isValidEmail (VStr s) = true <->
        exists l d t,
          s = l ++ 64 :: d ++ 46 :: t
          /\ l <> [] /\ d <> [] /\ t <> []
          /\ forallb is_email_char l = true
          /\ forallb is_email_char d = true
          /\ forallb is_email_char t = true)
  /\ isValidEmail (VStr (lit "a@b.co")) = true
  /\ isValidEmail (VStr (lit "a@b")) = false
  /\ isValidEmail (VStr (lit "a b@c.com")) = false
  /\ isValidEmail (VStr (lit "")) = false.
Proof.
  split; [| split].
  - intros s. apply matches_Lang.
  - intros s. unfold isValidEmail. simpl ToString.
    rewrite matches_Lang. apply Lang_re_email.
  - repeat split; reflexivity.
Qed.

(** ** [calculatePasswordStrength] *)

Section Strength.

Lemma b2n_le_1 b : b2n b <= 1.
Proof. destruct b; simpl; lia. Qed.

(** The score of the code is the sum of its checks. *)
Lemma password_score_sum v s : password_score v (VStr s) = Ok (score_sum v s).
Proof.
  unfold password_score, score_sum. cbn [js_length bind ToString].
  rewrite !test_class.
  destruct (8 <=? _), (12 <=? _), (existsb is_lower s),
    (existsb is_upper s), (existsb is_digit s), (existsb is_symbol s), v;
    try reflexivity;
    destruct (test_repeated s), (test re_sequential s); reflexivity.
Qed.

Lemma score_sum_le_8 v s : score_sum v s <= 8.
Proof.
  unfold score_sum.
  pose proof (b2n_le_1 (8 <=? N.of_nat (length s))).
  pose proof (b2n_le_1 (12 <=? N.of_nat (length s))).
  pose proof (b2n_le_1 (existsb is_lower s)).
  pose proof (b2n_le_1 (existsb is_upper s)).
  pose proof (b2n_le_1 (existsb is_digit s)).
  pose proof (b2n_le_1 (existsb is_symbol s)).
  pose proof (b2n_le_1 (negb (test_repeated s))).
  pose proof (b2n_le_1 (negb (test re_sequential s))).
  destruct v; lia.
Qed.

(** The table lookup of the code is the band function of the
    specification, the default for a score outside the table included. *)
Lemma find_level_band score : lband (find_level score) = spec_band score.
Proof.
  unfold find_level, spec_band, levels. cbn [find lmin lmax].
  repeat match goal with
         | |- context [?a <=? ?b] => destruct (N.leb_spec a b)
         end; simpl; try reflexivity; lia.
Qed.

Lemma calculatePasswordStrength_band v s :
  calculatePasswordStrength v (VStr s) = Ok (find_level (score_sum v s)).
Proof.
  unfold calculatePasswordStrength. by rewrite password_score_sum.
Qed.

Lemma spec_band_mono m n :
  m <= n -> n <= 8 -> band_rank (spec_band m) <= band_rank (spec_band n).
Proof.
  intros Hmn Hn. unfold spec_band.
  repeat match goal with
         | |- context [?a <=? ?b] => destruct (N.leb_spec a b)
         end; simpl; lia.
Qed.

(** Every code unit is in its own class. *)
Lemma in_class_of c : in_class (class_of c) c = true.
Proof.
  unfold class_of.
  destruct (is_lower c) eqn:Hl; [done |].
  destruct (is_upper c) eqn:Hu; [done |].
  destruct (is_digit c) eqn:Hd; [done |].
  simpl. unfold is_symbol. by rewrite Hl, Hu, Hd.
Qed.

Lemma class_absent_not_In c s :
  existsb (in_class (class_of c)) s = false -> ~ In c s.
Proof.
  intros Habs Hin.
  assert (existsb (in_class (class_of c)) s = true); [| congruence].
  apply existsb_exists. exists c. split; [done | apply in_class_of].
Qed.

Lemma threshold_mono k n : b2n (k <=? n) <= b2n (k <=? n + 1).
Proof.
  destruct (N.leb_spec k n), (N.leb_spec k (n + 1)); simpl; lia.
Qed.

Lemma existsb_snoc (p : N -> bool) s c :
  existsb p (s ++ [c]) = existsb p s || p c.
Proof. rewrite existsb_app. simpl. by rewrite orb_false_r. Qed.

(** A code unit of a class that [s] lacks adds the point of that class
    and takes none of the other three. *)
Lemma class_points_snoc s c :
  existsb (in_class (class_of c)) s = false ->
  b2n (existsb is_lower s) + b2n (existsb is_upper s)
  + b2n (existsb is_digit s) + b2n (existsb is_symbol s) + 1
  <= b2n (existsb is_lower (s ++ [c])) + b2n (existsb is_upper (s ++ [c]))
     + b2n (existsb is_digit (s ++ [c])) + b2n (existsb is_symbol (s ++ [c])).
Proof.
  intros Habs. pose proof (in_class_of c) as Hc.
  rewrite !existsb_snoc.
  destruct (class_of c); cbn [in_class] in Habs, Hc; rewrite Habs, Hc;
    repeat match goal with
           | |- context [existsb ?p s] => destruct (existsb p s)
           end;
    destruct (is_lower c), (is_upper c), (is_digit c), (is_symbol c);
    cbn [b2n orb]; lia.
Qed.

(** Appending a code unit that [s] does not hold cannot complete a run
    of three equal code units. *)
Lemma test_repeated_snoc s c :
  ~ In c s -> test_repeated (s ++ [c]) = true -> test_repeated s = true.
Proof.
  induction s as [|a t IH]; [done |].
  intros Hnin. destruct t as [|b [|b' t']].
  - done.
  - cbn [test_repeated app]. rewrite orb_false_r, !andb_true_iff.
    intros [_ ->%N.eqb_eq]. exfalso. apply Hnin. by left.
  - change ((a :: b :: b' :: t') ++ [c])
      with (a :: (b :: b' :: t') ++ [c]).
    cbn [test_repeated app]. rewrite !orb_true_iff.
    intros [H|H]; [by left | right].
    apply IH; [| done]. intros Hin. apply Hnin. by right.
Qed.

Lemma repeated_point_snoc s c :
  ~ In c s ->
  b2n (negb (test_repeated s)) <= b2n (negb (test_repeated (s ++ [c]))).
Proof.
  intros Hnin. pose proof (test_repeated_snoc s c Hnin).
  destruct (test_repeated s), (test_repeated (s ++ [c]));
    cbn [b2n negb]; lia.
Qed.

(** The score does not go down when a code unit of a new class is
    appended. *)
Lemma score_sum_snoc v s c :
  existsb (in_class (class_of c)) s = false ->
  score_sum v s <= score_sum v (s ++ [c]).
Proof.
  intros Habs. unfold score_sum.
  pose proof (class_points_snoc s c Habs).
  pose proof (repeated_point_snoc s c (class_absent_not_In c s Habs)).
  pose proof (b2n_le_1 (negb (test re_sequential s))).
  rewrite length_app. cbn [length].
  replace (N.of_nat (length s + 1)) with (N.of_nat (length s) + 1) by lia.
  pose proof (threshold_mono 8 (N.of_nat (length s))).
  pose proof (threshold_mono 12 (N.of_nat (length s))).
  destruct v; lia.
Qed.

End Strength.

(** C3.  Appending to a password a character whose class (lowercase,
    uppercase, digit, symbol) the password does not have yet never lowers
    the strength band, in the six-check iterations and in the eight-check
    one. *)
Theorem strength_band_monotone (v : variant) (s : jsstring) (c : N) :
  existsb (in_class (class_of c)) s = false ->
  exists l1 l2,
    calculatePasswordStrength v (VStr s) = Ok l1
    /\ calculatePasswordStrength v (VStr (s ++ [c])) = Ok l2
    /\ band_rank (lband l1) <= band_rank (lband l2).
Proof.
  intros Habs. eexists _, _.
  split; [apply calculatePasswordStrength_band |].
  split; [apply calculatePasswordStrength_band |].
  rewrite !find_level_band.
  apply spec_band_mono; [by apply score_sum_snoc | apply score_sum_le_8].
Qed.

Lemma strength_band_monotone_witness :
  existsb (in_class (class_of 99)) (lit "AB") = false
  /\ exists l1 l2,
       calculatePasswordStrength Modern (VStr (lit "AB")) = Ok l1
       /\ calculatePasswordStrength Modern (VStr (lit "AB" ++ [99])) = Ok l2
       /\ band_rank (lband l1) <= band_rank (lband l2).
Proof.
  split; [reflexivity |].
  exact (strength_band_monotone Modern (lit "AB") 99 eq_refl).
Defined.

(** The hypothesis of C3 is needed: a fourth lowercase letter can complete
    a sequential run and take the password from fair back to weak. *)
Example strength_band_drops_without_new_class :
  calculatePasswordStrength Modern (VStr (lit "ab"))
  = Ok (Level 3 4 fair "Fair password")
  /\ calculatePasswordStrength Modern (VStr (lit "abc"))
     = Ok (Level 0 2 weak "Weak password").
Proof. split; reflexivity. Qed.

(** ** Error slots and the form validators *)

Section Forms.

Lemma showFieldError_lookup v i msg (d : gmap string element) j :
  showFieldError v i msg d !! j
  = if decide (i = j) then with_error v msg <$> d !! i else d !! j.
Proof.
  unfold showFieldError. destruct (d !! i) eqn:E.
  - rewrite lookup_insert. case_decide; [done | done].
  - case_decide; [by subst; rewrite E | done].
Qed.

Lemma clearFieldError_lookup v i (d : gmap string element) j :
  clearFieldError v i d !! j
  = if decide (i = j) then without_error v <$> d !! i else d !! j.
Proof.
  unfold clearFieldError. destruct (d !! i) eqn:E.
  - rewrite lookup_insert. case_decide; [done | done].
  - case_decide; [by subst; rewrite E | done].
Qed.

(** Reads an error slot back through the writes of a validator. *)
Ltac read_slots :=
  repeat first
    [ rewrite showFieldError_lookup
    | rewrite clearFieldError_lookup
    | case_decide ];
  try done.

(** The guard [!password || password.length < 1] never reads the length
    of [undefined]. *)
Lemma password_missing_guard password :
  (if negb (truthy password) then Ok true
   else let* len := js_length password in Ok (len <? 1))
  = Ok (negb (truthy password)).
Proof.
  destruct password as [|[|c s]]; try done.
  cbn [truthy negb js_length bind length]. f_equal. apply N.ltb_ge. lia.
Qed.

(** The guard [!name || name.trim().length < 2]. *)
Lemma name_guard userData :
  (if negb (truthy (get userData "name")) then Ok true
   else
     let* trimmed := js_trim (get userData "name") in
     let* len := js_length trimmed in
     Ok (len <? 2))
  = Ok (negb (name_ok userData)).
Proof.
  unfold name_ok. destruct (get userData "name") as [|[|c s]]; try done.
  cbn [truthy negb js_trim bind js_length].
  by rewrite N.leb_antisym, negb_involutive.
Qed.

(** [validateLoginForm] returns for every snapshot, runs both checks and
    reports each in its own slot. *)
Lemma validateLoginForm_spec v credentials (d : gmap string element) :
  exists d',
    validateLoginForm v credentials d
    = Ok (isValidEmail (get credentials "email")
          && truthy (get credentials "password"), d')
    /\ d' !! "email-error"%string
       = slot_after v (isValidEmail (get credentials "email")) msg_email
           (d !! "email-error"%string)
    /\ d' !! "password-error"%string
       = slot_after v (truthy (get credentials "password")) msg_required
           (d !! "password-error"%string).
Proof.
  unfold validateLoginForm, slot_after.
  rewrite password_missing_guard. cbn [bind].
  destruct (isValidEmail _), (truthy _); cbn [negb andb];
    eexists; (split; [reflexivity |]);
    repeat split; read_slots.
Qed.

Lemma validateRegisterForm_spec v userData (d : gmap string element) :
  exists d',
    validateRegisterForm v userData d
    = Ok (name_ok userData && email_ok userData
          && password_ok v userData && confirm_ok userData, d')
    /\ d' !! "name-error"%string
       = slot_after v (name_ok userData) msg_name (d !! "name-error"%string)
    /\ d' !! "register-email-error"%string
       = slot_after v (email_ok userData) msg_email
           (d !! "register-email-error"%string)
    /\ d' !! "register-password-error"%string
       = slot_after v (password_ok v userData) (password_message v userData)
           (d !! "register-password-error"%string)
    /\ d' !! "confirm-password-error"%string
       = slot_after v (confirm_ok userData) msg_mismatch
           (d !! "confirm-password-error"%string).
Proof.
  unfold validateRegisterForm, slot_after, email_ok, password_ok,
    password_message, confirm_ok, strict_eq.
  rewrite name_guard. cbn [bind].
  destruct (validatePassword_total v (get userData "password")) as [r ->].
  cbn [bind].
  destruct (name_ok userData), (isValidEmail _), (isValid r),
    (bool_decide _); cbn [negb andb];
    eexists; (split; [reflexivity |]);
    repeat split; read_slots.
Qed.

End Forms.

(** ** The trimmed name *)

Section Trim.

Lemma trim_start_white l x :
  forallb is_white_space l = true -> trim_start (l ++ x) = trim_start x.
Proof.
  induction l as [|c l IH]; [done |]. cbn [forallb app trim_start].
  intros [-> Hl]%andb_true_iff. by apply IH.
Qed.

Lemma trim_start_all_white l :
  forallb is_white_space l = true -> trim_start l = [].
Proof.
  intros Hl. rewrite <- (app_nil_r l). by rewrite trim_start_white.
Qed.

(** [trim_start] removes a run of white space and stops at the first
    code unit that is none. *)
Lemma trim_start_split s :
  exists l,
    s = l ++ trim_start s
    /\ forallb is_white_space l = true
    /\ (forall c u, trim_start s = c :: u -> is_white_space c = false).
Proof.
  induction s as [|c s (l & E & Hl & Hhead)].
  - by exists [].
  - cbn [trim_start]. destruct (is_white_space c) eqn:Hc.
    + exists (c :: l). cbn [app forallb]. rewrite Hc, Hl.
      split; [by rewrite <- E | done].
    + exists []. split; [done |]. split; [done |].
      intros c' u [= <- _]. done.
Qed.

Lemma forallb_rev (p : N -> bool) l : forallb p (rev l) = forallb p l.
Proof.
  induction l as [|c l IH]; [done |]. cbn [rev forallb].
  rewrite forallb_app, IH. cbn [forallb]. by rewrite andb_true_r, andb_comm.
Qed.

(** [trim] gives the trimmed string. *)
Lemma trim_spec s : is_trim_of s (trim s).
Proof.
  unfold trim.
  destruct (trim_start_split s) as (l & El & Hl & Hhead).
  destruct (trim_start_split (rev (trim_start s))) as (r & Er & Hr & Hlast).
  set (u := trim_start s) in *. set (w := trim_start (rev u)) in *.
  assert (u = rev w ++ rev r) as Eu.
  { rewrite <- rev_app_distr, <- Er. by rewrite rev_involutive. }
  exists l, (rev r). split; [by rewrite <- Eu |].
  split; [done |]. split; [by rewrite forallb_rev |]. split.
  - intros c t Et. apply (Hhead c (t ++ rev r)). by rewrite Eu, Et.
  - intros t c Et. apply (Hlast c (rev t)).
    rewrite <- (rev_involutive w), Et, rev_app_distr. done.
Qed.

(** Only [trim s] is the trimmed string. *)
Lemma trim_unique s t : is_trim_of s t -> trim s = t.
Proof.
  intros (l & r & -> & Hl & Hr & Hhead & Hlast). unfold trim.
  rewrite (trim_start_white l _ Hl).
  destruct t as [|c u].
  - cbn [app]. by rewrite (trim_start_all_white r Hr).
  - cbn [app trim_start]. rewrite (Hhead c u eq_refl).
    change (c :: u ++ r) with ((c :: u) ++ r).
    rewrite rev_app_distr, trim_start_white by by rewrite forallb_rev.
    destruct (rev (c :: u)) as [|a w] eqn:Erev.
    + apply (f_equal (@rev N)) in Erev. by rewrite rev_involutive in Erev.
    + cbn [trim_start]. rewrite (Hlast (rev w) a).
      * by rewrite <- Erev, rev_involutive.
      * rewrite <- (rev_involutive (c :: u)), Erev. done.
Qed.

(** The name check, without [trim]: the name is a string whose trimmed
    part has at least 2 code units. *)
Lemma name_ok_trimmed userData :
  name_ok userData = true <->
  exists s t,
    get userData "name" = VStr s /\ is_trim_of s t /\ (2 <= length t)%nat.
Proof.
  unfold name_ok. split.
  - destruct (get userData "name") as [|s]; [done |].
    intros H%N.leb_le. exists s, (trim s).
    split; [done |]. split; [apply trim_spec | lia].
  - intros (s & t & -> & <-%trim_unique & Hlen). apply N.leb_le. lia.
Qed.

End Trim.

(** What an error slot shows after a check of a form validator. *)
Lemma slot_after_text v passed msg (slot : option element) :
  textContent <$> slot_after v passed msg slot
  = (fun _ => if passed then ""%string else msg) <$> slot.
Proof. by destruct slot, passed. Qed.

(** C6.  For every snapshot [validateRegisterForm] returns, and its flag
    is the conjunction of the four checks: the name is a string whose
    part between leading and trailing white space has at least 2 code
    units, the e-mail is valid, the password is accepted by
    [validatePassword], and the password equals its confirmation.  Each
    of the four error slots that exists shows the message of its check
    when the check fails and no text when it passes, whatever the other
    checks give. *)
Theorem validateRegisterForm_checks :
  forall (v : variant) (userData : gmap string jsval)
         (d : gmap string element),
  exists d',
    validateRegisterForm v userData d
    = Ok (name_ok userData && email_ok userData
          && password_ok v userData && confirm_ok userData, d')
    /\ (name_ok userData = true <->
        exists s t,
          get userData "name" = VStr s /\ is_trim_of s t
          /\ (2 <= length t)%nat)
    /\ textContent <$> d' !! "name-error"%string
       = (fun _ =>
            if name_ok userData then ""%string
            else "Please enter your full name (at least 2 characters)"%string)
           <$> d !! "name-error"%string
    /\ textContent <$> d' !! "register-email-error"%string
       = (fun _ =>
            if email_ok userData then ""%string
            else "Please enter a valid email address"%string)
           <$> d !! "register-email-error"%string
    /\ textContent <$> d' !! "register-password-error"%string
       = (fun _ =>
            if password_ok v userData then ""%string
            else password_message v userData)
           <$> d !! "register-password-error"%string
    /\ textContent <$> d' !! "confirm-password-error"%string
       = (fun _ =>
            if confirm_ok userData then ""%string
            else "Passwords do not match"%string)
           <$> d !! "confirm-password-error"%string.
Proof.
  intros v userData d.
  destruct (validateRegisterForm_spec v userData d)
    as (d' & E & H1 & H2 & H3 & H4).
  exists d'. split; [exact E |]. split; [apply name_ok_trimmed |].
  rewrite H1, H2, H3, H4. by rewrite !slot_after_text.
Qed.


(** The four errors of one submit, side by side. *)
Example validateRegisterForm_all_errors :
  exists d',
    validateRegisterForm Fixed register_all_wrong register_slots
    = Ok (false, d')
    /\ textContent <$> d' !! "name-error"%string = Some msg_name
    /\ textContent <$> d' !! "register-email-error"%string = Some msg_email
    /\ textContent <$> d' !! "register-password-error"%string
       = Some msg_too_short
    /\ textContent <$> d' !! "confirm-password-error"%string
       = Some msg_mismatch.
Proof.
  destruct (validateRegisterForm_spec Fixed register_all_wrong register_slots)
    as (d' & E & H1 & H2 & H3 & H4).
  exists d'. split; [exact E |]. rewrite H1, H2, H3, H4.
  repeat split; reflexivity.
Qed.

(** A name of two characters passes, a name that trims to one does not. *)
Example name_ok_examples :
  name_ok register_valid = true /\ name_ok register_all_wrong = false.
Proof. split; reflexivity. Qed.

(** Nothing but the two slots of the login form is written. *)
Lemma validateLoginForm_frame v credentials (d d' : gmap string element) ok j :
  validateLoginForm v credentials d = Ok (ok, d') ->
  j <> "email-error"%string -> j <> "password-error"%string ->
  d' !! j = d !! j.
Proof.
  unfold validateLoginForm. rewrite password_missing_guard. cbn [bind].
  intros H Hj1 Hj2.
  destruct (isValidEmail _), (truthy _); cbn [negb] in H;
    injection H as _ <-;
    repeat first
      [ rewrite showFieldError_lookup
      | rewrite clearFieldError_lookup
      | case_decide ]; congruence.
Qed.

(** C8 (as amended).  When the e-mail is syntactically invalid and the
    password is not empty, [validateLoginForm] returns false, reports the
    e-mail, and clears the password slot: the slot ends without message,
    it is not left as it was. *)
Theorem validateLoginForm_invalid_email
    (v : variant) (credentials : gmap string jsval)
    (d : gmap string element) :
  isValidEmail (get credentials "email") = false ->
  truthy (get credentials "password") = true ->
  exists d',
    validateLoginForm v credentials d = Ok (false, d')
    /\ d' !! "email-error"%string
       = with_error v msg_email <$> d !! "email-error"%string
    /\ d' !! "password-error"%string
       = without_error v <$> d !! "password-error"%string.
Proof.
  intros Hemail Hpw.
  destruct (validateLoginForm_spec v credentials d) as (d' & E & He & Hp).
  rewrite Hemail, Hpw in *. by exists d'.
Qed.



Lemma validateLoginForm_invalid_email_witness :
  exists d',
    validateLoginForm Fixed login_bad_email stale_password_slot = Ok (false, d')
    /\ d' !! "email-error"%string
       = with_error Fixed msg_email <$> stale_password_slot !! "email-error"%string
    /\ d' !! "password-error"%string
       = without_error Fixed <$> stale_password_slot !! "password-error"%string.
Proof.
  apply (validateLoginForm_invalid_email Fixed login_bad_email
           stale_password_slot); reflexivity.
Defined.

(** C8 fails as stated: a password slot that still shows the message of an
    earlier submit is rewritten, in every iteration. *)
Lemma validateLoginForm_rewrites_password_slot :
  isValidEmail (get login_bad_email "email") = false
  /\ truthy (get login_bad_email "password") = true
  /\ forall v, exists d',
       validateLoginForm v login_bad_email stale_password_slot = Ok (false, d')
       /\ d' !! "password-error"%string
          <> stale_password_slot !! "password-error"%string.
Proof.
  split; [reflexivity |]. split; [reflexivity |]. intros v.
  destruct (validateLoginForm_spec v login_bad_email stale_password_slot)
    as (d' & E & _ & Hp).
  exists d'. split; [exact E |].
  rewrite Hp. by destruct v.
Qed.

(** C10.  A snapshot without an [email] property does not make
    [validateLoginForm] throw: [isValidEmail(undefined)] is false, the
    call returns false, and the e-mail slot, where the page has one,
    shows "Please enter a valid email address". *)
Theorem validateLoginForm_missing_email
    (v : variant) (credentials : gmap string jsval)
    (d : gmap string element) :
  credentials !! "email"%string = None ->
  isValidEmail (get credentials "email") = false
  /\ exists d',
       validateLoginForm v credentials d = Ok (false, d')
       /\ textContent <$> d' !! "email-error"%string
          = (fun _ => "Please enter a valid email address"%string)
              <$> d !! "email-error"%string.
Proof.
  intros Hnone.
  assert (isValidEmail (get credentials "email") = false) as Hemail.
  { unfold get. by rewrite Hnone. }
  split; [done |].
  destruct (validateLoginForm_spec v credentials d) as (d' & E & He & _).
  rewrite Hemail in *. exists d'. split; [done |].
  rewrite He. apply slot_after_text.
Qed.

Lemma validateLoginForm_missing_email_witness :
  isValidEmail (get login_without_email "email") = false
  /\ exists d',
       validateLoginForm Modern login_without_email empty_email_slot
       = Ok (false, d')
       /\ textContent <$> d' !! "email-error"%string
          = Some "Please enter a valid email address"%string.
Proof.
  apply (validateLoginForm_missing_email Modern login_without_email
           empty_email_slot); reflexivity.
Defined.

(** ** Confirmation of the password, while typing and on submit *)

(** C9.  While the confirm field is empty, [validatePasswordMatch]
    returns and leaves the mismatch slot without text, whatever the
    password field holds; on submit, [validateRegisterForm] rejects an
    empty confirmation of a non-empty password and the mismatch slot
    shows "Passwords do not match". *)
Theorem validatePasswordMatch_empty_confirm
    (v : variant) (d : gmap string element) (passwordInput confirmInput : element)
    (userData : gmap string jsval) (pw : jsstring) (d0 : gmap string element) :
  d !! "registerPassword"%string = Some passwordInput ->
  d !! "confirmPassword"%string = Some confirmInput ->
  value confirmInput = [] ->
  get userData "password" = VStr pw ->
  pw <> [] ->
  get userData "confirmPassword" = VStr [] ->
  (exists d',
     validatePasswordMatch v d = Ok d'
     /\ textContent <$> d' !! "confirm-password-error"%string
        = (fun _ => ""%string) <$> d !! "confirm-password-error"%string)
  /\ (exists d0',
        validateRegisterForm v userData d0 = Ok (false, d0')
        /\ textContent <$> d0' !! "confirm-password-error"%string
           = (fun _ => "Passwords do not match"%string)
               <$> d0 !! "confirm-password-error"%string).
Proof.
  intros Hp Hc Hempty Hpw Hne Hconfirm. split.
  - unfold validatePasswordMatch. rewrite Hp, Hc, Hempty. cbn [truthy andb].
    eexists. split; [reflexivity |].
    rewrite clearFieldError_lookup. case_decide; [| done].
    by destruct (d !! "confirm-password-error"%string).
  - destruct (validateRegisterForm_spec v userData d0)
      as (d0' & E & _ & _ & _ & Hslot).
    assert (confirm_ok userData = false) as Hno.
    { unfold confirm_ok. rewrite Hpw, Hconfirm.
      apply bool_decide_eq_false. congruence. }
    rewrite Hno in *. rewrite !andb_false_r in E.
    exists d0'. split; [done |]. rewrite Hslot. apply slot_after_text.
Qed.

Lemma validatePasswordMatch_empty_confirm_witness :
  (exists d',
     validatePasswordMatch Fixed typing_document = Ok d'
     /\ textContent <$> d' !! "confirm-password-error"%string
        = Some ""%string)
  /\ (exists d0',
        validateRegisterForm Fixed register_unconfirmed typing_document
        = Ok (false, d0')
        /\ textContent <$> d0' !! "confirm-password-error"%string
           = Some "Passwords do not match"%string).
Proof.
  apply (validatePasswordMatch_empty_confirm Fixed typing_document
           (Element (lit "Abcdefg1") "" None) (Element [] "" None)
           register_unconfirmed (lit "Abcdefg1") typing_document);
    first [ reflexivity | discriminate ].
Defined.

(** With a non-empty confirmation that differs, the real-time check does
    report the mismatch. *)
Example validatePasswordMatch_reports_mismatch :
  let d := <["confirmPassword"%string := Element (lit "x") "" None]>
             typing_document in
  forall v, exists d',
    validatePasswordMatch v d = Ok d'
    /\ d' !! "confirm-password-error"%string
       = with_error v msg_mismatch <$> d !! "confirm-password-error"%string.
Proof.
  intros d v. unfold validatePasswordMatch.
  eexists. split; [reflexivity |].
  rewrite showFieldError_lookup. by case_decide.
Qed.

(** ** The simulated authentication call *)

Lemma strict_eq_true a b : strict_eq a b = true <-> a = b.
Proof. unfold strict_eq. apply bool_decide_eq_true. Qed.

Lemma strict_eq_false a b : strict_eq a b = false <-> a <> b.
Proof. unfold strict_eq. apply bool_decide_eq_false. Qed.

(** C5 (as amended).  In [script.js], on the login path and on the
    registration path alike, [authenticateUser] throws exactly for the two
    sentinel addresses (invalid credentials for test@error.com, network
    failure for test@network.com) and otherwise returns success with a
    user record built from the credentials and the token; in
    [script-merged.js] the login handler throws only for test@error.com
    and the registration handler never throws. *)
Theorem authenticateUser_outcomes :
  forall (type : auth_type) (uuid : jsstring)
         (credentials : gmap string jsval),
    let email := get credentials "email" in
    ((exists e, authenticateUser type uuid credentials = Throw e) <->
     email = VStr (lit "test@error.com")
     \/ email = VStr (lit "test@network.com"))
    /\ (email = VStr (lit "test@error.com") ->
        authenticateUser type uuid credentials
        = Throw (Error "Invalid credentials"))
    /\ (email = VStr (lit "test@network.com") ->
        authenticateUser type uuid credentials
        = Throw (Error "Network connection failed"))
    /\ (email <> VStr (lit "test@error.com") ->
        email <> VStr (lit "test@network.com") ->
        authenticateUser type uuid credentials
        = Ok (AuthResponse true
                (User uuid email
                   (js_or (get credentials "name") (VStr (lit "User"))))
                (lit "mock-jwt-token")))
    /\ ((exists e, merged_call login credentials = Throw e) <->
        email = VStr (lit "test@error.com"))
    /\ merged_call register credentials = Ok tt.
Proof.
  intros type uuid credentials email.
  unfold authenticateUser, merged_call. fold email.
  destruct (strict_eq email (VStr (lit "test@error.com"))) eqn:E1;
    [apply strict_eq_true in E1 | apply strict_eq_false in E1];
    (destruct (strict_eq email (VStr (lit "test@network.com"))) eqn:E2;
     [apply strict_eq_true in E2 | apply strict_eq_false in E2]).
  1: rewrite E1 in E2; discriminate E2.
  all: repeat split;
    try solve
      [ done
      | eauto
      | congruence
      | intros [e He]; discriminate He
      | intros [H|H]; congruence
      | intros; subst; congruence ].
Qed.

(** C5 fails as stated in [script-merged.js]: its login handler succeeds
    for test@network.com and its registration handler succeeds for
    test@error.com. *)
Lemma merged_call_ignores_sentinels :
  merged_call login (<["email"%string := VStr (lit "test@network.com")]> ∅)
  = Ok tt
  /\ merged_call register (<["email"%string := VStr (lit "test@error.com")]> ∅)
     = Ok tt.
Proof. split; reflexivity. Qed.

(** ** The single-flight guard of the registration handler *)

Module FixedGuard.
Import FixedSequencer.

Lemma Inv_init d : Inv (init d).
Proof. by left. Qed.

Lemma Inv_handleRegister userData st : Inv st -> Inv (handleRegister userData st).
Proof.
  destruct st as [flag d p l]. unfold handleRegister.
  intros [[Hf Hp]|[Hf Hp]]; simpl in Hf, Hp; subst flag; cbn -[validateRegisterForm].
  - subst p. destruct (validateRegisterForm Fixed userData d) as [[[|] d']|e];
      right; (split; [done |]); eexists; (split; [reflexivity |]); auto.
  - by right.
Qed.

Lemma Inv_resume i uuid st : Inv st -> Inv (resume i uuid st).
Proof.
  destruct st as [flag d p l]. unfold resume.
  intros [[Hf Hp]|[Hf (t & Hp & Ht)]]; simpl in Hf, Hp; subst flag p.
  - left. by destruct i.
  - destruct i as [|i]; cbn -[authenticateUser]; [| right; eauto].
    destruct Ht as [Ht| ->].
    + destruct t as [userData|ms|ms cb]; [| | done].
      * destruct (authenticateUser register uuid userData) as [[[|] u tk]|e];
          right; (split; [done |]); eexists; (split; [reflexivity |]); auto.
      * right. split; [done |]. eexists. split; [reflexivity |]. auto.
    + by left.
Qed.

Lemma Inv_run d evs : Inv (run d evs).
Proof.
  unfold run. generalize (Inv_init d). generalize (init d).
  induction evs as [|ev evs IH]; intros st Hst; [done |].
  apply IH. destruct ev; [by apply Inv_handleRegister | by apply Inv_resume].
Qed.

(** With the flag up, [handleRegister] returns at once. *)
Lemma handleRegister_ignored userData st :
  registrationInProgress st = true ->
  handleRegister userData st
  = MState true (doc st) (pending st)
      (log st ++ [EConsoleLog "Handling registration...";
                  EConsoleLog "Registration already in progress, ignoring..."]).
Proof.
  destruct st as [flag d p l]. simpl. intros ->.
  unfold handleRegister. simpl. by rewrite <- app_assoc.
Qed.

Lemma count_console p st l :
  Forall (fun e => p e = false) l ->
  count p (MState true (doc st) (pending st) (log st ++ l)) = count p st.
Proof.
  intros Hl. unfold count. simpl. rewrite filter_app, length_app.
  enough (filter (fun e => p e = true) l = []) as -> by (simpl; lia).
  induction Hl as [|e l He _ IH]; [done |].
  rewrite filter_cons. case_decide; [congruence | done].
Qed.

End FixedGuard.

Module FixedGuardSteps.
Import FixedSequencer FixedGuard.

(** Resuming an attempt in flight keeps the flag up; the attempt goes on
    or has completed, and then the one-second timer is what is left. *)
Lemma resume_in_flight i uuid st t :
  registrationInProgress st = true ->
  pending st = [t] ->
  is_in_flight t = true ->
  registrationInProgress (resume i uuid st) = true
  /\ (in_flight (resume i uuid st) = true
      \/ pending (resume i uuid st) = [Timeout 1000 ResetFlag]).
Proof.
  destruct st as [flag d p l]. simpl. intros -> -> Ht. unfold resume.
  destruct i as [|i]; cbn -[authenticateUser].
  - destruct t as [userData|ms|ms cb]; [| | done].
    + destruct (authenticateUser register uuid userData)
        as [[[|] u tk]|e]; cbn; auto.
    + cbn. auto.
  - split; [done |]. left. unfold in_flight. simpl. by rewrite Ht.
Qed.

(** The timer lowers the flag, and nothing is left pending. *)
Lemma resume_cooldown uuid st :
  pending st = [Timeout 1000 ResetFlag] ->
  registrationInProgress (resume 0 uuid st) = false
  /\ pending (resume 0 uuid st) = [].
Proof.
  destruct st as [flag d p l]. simpl. intros ->. by unfold resume.
Qed.

End FixedGuardSteps.

(** C4 (as amended).  In the first class of [script.js], whatever the
    events so far, while a registration attempt is in flight the flag is
    up and a further submit is ignored: the handler only logs, it runs no
    validation, starts no second call and leaves the document, hence every
    error slot, as it is.  Resuming the attempt keeps the flag up until
    the attempt has completed; what is pending then is the timer of 1000
    ms, during which a submit is still ignored and whose firing lowers the
    flag.  The other two classes have no such guard. *)
Theorem registration_single_flight
    (d : gmap string element) (evs : list event)
    (userData : gmap string jsval) :
  let st := FixedSequencer.run d evs in
  let ignored :=
    [EConsoleLog "Handling registration...";
     EConsoleLog "Registration already in progress, ignoring..."] in
  in_flight st = true ->
  registrationInProgress st = true
  /\ FixedSequencer.step st (Submit userData)
     = MState true (doc st) (pending st) (log st ++ ignored)
  /\ count is_validate (FixedSequencer.step st (Submit userData))
     = count is_validate st
  /\ count is_auth_call (FixedSequencer.step st (Submit userData))
     = count is_auth_call st
  /\ forall i uuid,
       let st1 := FixedSequencer.step st (Resume i uuid) in
       registrationInProgress st1 = true
       /\ (in_flight st1 = true
           \/ (pending st1 = [Timeout 1000 ResetFlag]
               /\ (forall u1,
                     FixedSequencer.step st1 (Submit u1)
                     = MState true (doc st1) (pending st1)
                         (log st1 ++ ignored))
               /\ (forall uuid1,
                     let st2 := FixedSequencer.step st1 (Resume 0 uuid1) in
                     registrationInProgress st2 = false
                     /\ pending st2 = []))).
Proof.
  intros st ignored Hfly.
  destruct (FixedGuard.Inv_run d evs) as [[_ Hp]|[Hf (t & Hp & Ht)]];
    fold st in Hp |- *.
  { unfold in_flight in Hfly. rewrite Hp in Hfly. discriminate Hfly. }
  fold st in Hf.
  assert (is_in_flight t = true) as Ht'.
  { unfold in_flight in Hfly. rewrite Hp in Hfly. simpl in Hfly.
    by rewrite orb_false_r in Hfly. }
  clear Ht.
  pose proof (FixedGuard.handleRegister_ignored userData st Hf) as Hign.
  split; [done |]. split; [exact Hign |].
  split; [| split].
  - cbn [FixedSequencer.step]. rewrite Hign.
    apply FixedGuard.count_console. by repeat constructor.
  - cbn [FixedSequencer.step]. rewrite Hign.
    apply FixedGuard.count_console. by repeat constructor.
  - intros i uuid st1.
    destruct (FixedGuardSteps.resume_in_flight i uuid st t Hf Hp Ht')
      as [Hf1 Hp1].
    split; [exact Hf1 |].
    destruct Hp1 as [Hp1|Hp1]; [by left | right].
    split; [exact Hp1 |]. split.
    + intros u1. by apply FixedGuard.handleRegister_ignored.
    + intros uuid1. by apply FixedGuardSteps.resume_cooldown.
Qed.

Lemma registration_single_flight_witness :
  in_flight (FixedSequencer.run ∅ [Submit register_valid]) = true
  /\ FixedSequencer.step (FixedSequencer.run ∅ [Submit register_valid])
       (Submit register_valid)
     = MState true
         (doc (FixedSequencer.run ∅ [Submit register_valid]))
         (pending (FixedSequencer.run ∅ [Submit register_valid]))
         (log (FixedSequencer.run ∅ [Submit register_valid])
          ++ [EConsoleLog "Handling registration...";
              EConsoleLog "Registration already in progress, ignoring..."]).
Proof.
  split; [reflexivity |].
  exact (proj1 (proj2 (registration_single_flight ∅ [Submit register_valid]
                         register_valid eq_refl))).
Defined.

(** C4 fails as stated in [script-merged.js]: a second submit that arrives
    while the first is in flight is validated and starts a second
    simulated call. *)
Lemma merged_register_not_guarded :
  let st1 := MergedSequencer.run ∅ [Submit register_valid] in
  let st2 := MergedSequencer.step st1 (Submit register_valid) in
  in_flight st1 = true
  /\ count is_validate st1 = 1%nat /\ count is_auth_call st1 = 1%nat
  /\ count is_validate st2 = 2%nat /\ count is_auth_call st2 = 2%nat
  /\ pending st2 = [AwaitDelay 2000; AwaitDelay 2000].
Proof. repeat split; reflexivity. Qed.

(** A run of the guarded handler: submit, a second submit that is ignored,
    the call resolves, the two-second pause ends, the timer fires. *)
Example fixed_register_run :
  let st :=
    FixedSequencer.run ∅
      [Submit register_valid; Submit register_valid;
       Resume 0 (lit "id"); Resume 0 []; Resume 0 []] in
  registrationInProgress st = false /\ pending st = []
  /\ count is_validate st = 1%nat /\ count is_auth_call st = 1%nat.
Proof. repeat split; reflexivity. Qed.

(** ** The pattern checks of the eight-check score *)

Section PatternChecks.

Lemma Lang_alternatives {A : Type} (f : A -> regex) (ws : list A) s :
  Lang (fold_right (fun w r => Alt (f w) r) Void ws) s <->
  exists w, In w ws /\ Lang (f w) s.
Proof.
  induction ws as [|w ws IH]; simpl.
  - split; [by intros H%Lang_Void_inv | by intros (w & [] & _)].
  - split.
    + intros [H|H]%Lang_Alt_inv; [by exists w; auto |].
      apply IH in H as (w' & Hin & H). exists w'. auto.
    + intros (w' & [->|Hin] & H); [by apply LAltL |].
      apply LAltR, IH. by exists w'.
Qed.

Lemma Lang_letters (cs : jsstring) s :
  Lang (fold_right (fun c r => Seq (Cls (is_letter_i c)) r) Eps cs) s <->
  Forall2 (fun c a => is_letter_i c a = true) cs s.
Proof.
  revert s. induction cs as [|c cs IH]; intros s; simpl.
  - split.
    + intros ->%Lang_Eps_inv. constructor.
    + intros H. inversion H. constructor.
  - split.
    + intros (s1 & s2 & -> & (a & -> & Ha)%Lang_Cls_inv & H)%Lang_Seq_inv.
      constructor; [done | by apply IH].
    + intros H. inversion H as [|? a ? s' Ha Hs]; subst.
      change (a :: s') with ([a] ++ s').
      constructor; [by constructor | by apply IH].
Qed.

(** The 24 alternatives are the runs of three letters from [abc] to
    [xyz]. *)
Lemma sequential_words_letters :
  map lit sequential_words
  = map (fun k => letters_from (N.of_nat k)) (seq 0 24).
Proof. reflexivity. Qed.

Lemma In_sequential_words cs :
  (exists w, In w sequential_words /\ lit w = cs) <->
  exists k, k < 24 /\ cs = letters_from k.
Proof.
  split.
  - intros (w & Hw & <-).
    assert (In (lit w) (map lit sequential_words)) as H by (by apply in_map).
    rewrite sequential_words_letters in H.
    apply in_map_iff in H as (n & E & Hn%in_seq).
    exists (N.of_nat n). split; [lia | done].
  - intros (k & Hk & ->).
    assert (In (letters_from k) (map lit sequential_words)) as H.
    { rewrite sequential_words_letters. apply in_map_iff.
      exists (N.to_nat k). rewrite N2Nat.id.
      split; [done | apply in_seq; lia]. }
    apply in_map_iff in H as (w & E & Hw). by exists w.
Qed.

Lemma is_letter_i_iff p c : is_letter_i p c = true <-> c = p \/ c = p - 32.
Proof. unfold is_letter_i. by rewrite orb_true_iff, !N.eqb_eq. Qed.

(** The pattern matches at the start of [t] when [t] starts with three
    letters of such a run, each in either case. *)
Lemma match_here_sequential t :
  match_here re_sequential t = true <->
  exists k x y z rest,
    k < 24 /\ t = x :: y :: z :: rest
    /\ is_letter_i (97 + k) x = true
    /\ is_letter_i (98 + k) y = true
    /\ is_letter_i (99 + k) z = true.
Proof.
  unfold match_here, re_sequential. cbn [lookaheads body forallb andb].
  rewrite matches_Lang. split.
  - intros (s1 & rest & -> & H & _)%Lang_Seq_inv.
    apply Lang_alternatives in H as (w & Hw & H).
    unfold word_i in H. apply Lang_letters in H.
    destruct (proj1 (In_sequential_words (lit w))) as (k & Hk & E);
      [by exists w |].
    rewrite E in H. unfold letters_from in H.
    inversion H as [|? x ? s2 Hx H2]; subst.
    inversion H2 as [|? y ? s3 Hy H3]; subst.
    inversion H3 as [|? z ? s4 Hz H4]; subst.
    inversion H4; subst.
    by exists k, x, y, z, rest.
  - intros (k & x & y & z & rest & Hk & -> & Hx & Hy & Hz).
    destruct (proj2 (In_sequential_words (letters_from k)))
      as (w & Hw & E); [by exists k |].
    change (x :: y :: z :: rest) with ([x; y; z] ++ rest).
    constructor; [| apply Lang_any_rest].
    apply Lang_alternatives. exists w. split; [done |].
    unfold word_i. apply Lang_letters. rewrite E.
    by repeat constructor.
Qed.

Lemma letter_index_Some c i :
  letter_index c = Some i <-> i < 26 /\ (c = 97 + i \/ c = 65 + i).
Proof.
  unfold letter_index, is_lower, is_upper, in_range.
  destruct (N.leb_spec 97 c), (N.leb_spec c 122), (N.leb_spec 65 c),
    (N.leb_spec c 90); cbn [andb];
    (split; [intros [= <-] | intros [? [?|?]]; try f_equal]); lia.
Qed.

Lemma consecutive_letters_iff x y z :
  consecutive_letters x y z = true <->
  exists k,
    k < 24
    /\ is_letter_i (97 + k) x = true
    /\ is_letter_i (98 + k) y = true
    /\ is_letter_i (99 + k) z = true.
Proof.
  unfold consecutive_letters. setoid_rewrite is_letter_i_iff. split.
  - destruct (letter_index x) as [i|] eqn:Ex; [| done].
    destruct (letter_index y) as [j|] eqn:Ey; [| done].
    destruct (letter_index z) as [k|] eqn:Ez; [| done].
    apply letter_index_Some in Ex, Ey, Ez.
    rewrite andb_true_iff, !N.eqb_eq. intros [-> ->].
    exists i. lia.
  - intros (k & Hk & Hx & Hy & Hz).
    assert (letter_index x = Some k) as -> by (apply letter_index_Some; lia).
    assert (letter_index y = Some (k + 1)) as ->
        by (apply letter_index_Some; lia).
    assert (letter_index z = Some (k + 2)) as ->
        by (apply letter_index_Some; lia).
    by rewrite !N.eqb_refl.
Qed.

Lemma match_here_sequential_eq t :
  match_here re_sequential t
  = match t with
    | x :: y :: z :: _ => consecutive_letters x y z
    | _ => false
    end.
Proof.
  apply eq_true_iff_eq. rewrite match_here_sequential. split.
  - intros (k & x & y & z & rest & Hk & -> & H).
    apply consecutive_letters_iff. by exists k.
  - destruct t as [|x [|y [|z rest]]]; try done.
    intros (k & Hk & H)%consecutive_letters_iff.
    by exists k, x, y, z, rest.
Qed.

(** The sequential-run pattern of the code finds the runs the
    specification describes. *)
Lemma test_sequential s : test re_sequential s = has_sequential_run s.
Proof.
  induction s as [|a t IH]; [done |].
  cbn [test has_sequential_run]. rewrite match_here_sequential_eq, IH.
  by destruct t as [|b [|c t']].
Qed.

(** Away from line terminators, the back-reference pattern finds the runs
    of three equal code units. *)
Lemma test_repeated_single_line s :
  single_line s = true -> test_repeated s = has_repeated_run s.
Proof.
  unfold single_line.
  induction s as [|a t IH]; [done |]. cbn [forallb].
  intros [Ha Ht]%andb_true_iff.
  cbn [test_repeated has_repeated_run]. rewrite Ha, (IH Ht).
  by destruct t as [|b [|c t']].
Qed.

Lemma score_sum_spec v s :
  single_line s = true -> score_sum v s = spec_score v s.
Proof.
  intros Hline. unfold score_sum, spec_score, spec_checks.
  rewrite test_sequential, (test_repeated_single_line s Hline).
  destruct v; cbn [app fold_right]; lia.
Qed.

End PatternChecks.

(** Apart from runs of line terminators, [calculatePasswordStrength] is
    the score and the band table of the specification, in every
    iteration. *)
Lemma calculatePasswordStrength_refines v s :
  single_line s = true ->
  calculatePasswordStrength v (VStr s) = Ok (find_level (spec_score v s))
  /\ lband (find_level (spec_score v s)) = spec_band (spec_score v s).
Proof.
  intros Hline. rewrite calculatePasswordStrength_band.
  rewrite (score_sum_spec v s Hline). split; [done | apply find_level_band].
Qed.

(** In the six-check iterations the agreement needs no side condition. *)
Lemma calculatePasswordStrength_six_checks v s :
  v <> Modern ->
  calculatePasswordStrength v (VStr s) = Ok (find_level (spec_score v s))
  /\ lband (find_level (spec_score v s)) = spec_band (spec_score v s).
Proof.
  intros Hv. rewrite calculatePasswordStrength_band.
  replace (score_sum v s) with (spec_score v s);
    [split; [done | apply find_level_band] |].
  unfold score_sum, spec_score, spec_checks.
  destruct v; [| done |]; cbn [app fold_right]; lia.
Qed.

(** ** The score against the specification's checks *)

(** C2.  The score of [calculatePasswordStrength] is additive and its band
    is the first matching range of the table, but in the eight-check
    class the point for "no run of 3+ repeated characters" is decided by
    [/(.)\1{2,}/], whose [.] matches no line terminator: three U+2028 in
    a row are a run of three repeated characters, and the code still
    gives the point.  The code scores 3 (symbol, no repeat, no sequence)
    and answers fair, where the checks of the specification score 2, which
    is weak. *)
Theorem calculatePasswordStrength_line_separator_run :
  let s := [8232; 8232; 8232] in
  has_repeated_run s = true
  /\ test_repeated s = false
  /\ password_score Modern (VStr s) = Ok 3
  /\ calculatePasswordStrength Modern (VStr s)
     = Ok (Level 3 4 fair "Fair password")
  /\ spec_score Modern s = 2
  /\ spec_band (spec_score Modern s) = weak.
Proof. repeat split; reflexivity. Qed.

(** * Further properties of the validators *)

(** ** The shape of an accepted e-mail address *)

Lemma is_email_char_iff c :
  is_email_char c = true <-> is_white_space c = false /\ c <> 64.
Proof.
  unfold is_email_char. rewrite negb_true_iff, orb_false_iff, N.eqb_neq.
  done.
Qed.

Lemma forallb_email_char l :
  forallb is_email_char l = true <->
  existsb is_white_space l = false /\ ~ In 64 l.
Proof.
  induction l as [|c l IH]; simpl; [tauto |].
  rewrite andb_true_iff, orb_false_iff, is_email_char_iff, IH.
  intuition congruence.
Qed.

(** X1.  [isValidEmail] accepts exactly the strings without white space
    that hold a single [@], not in first place, whose part after the [@]
    has a dot that is neither its first nor its last code unit. *)
Theorem isValidEmail_shape :
  forall s : jsstring,
    isValidEmail (VStr s) = true <->
    existsb is_white_space s = false
    /\ exists l r,
         s = l ++ 64 :: r /\ l <> [] /\ ~ In 64 l /\ ~ In 64 r
         /\ exists d t, r = d ++ 46 :: t /\ d <> [] /\ t <> [].
Proof.
  intros s. unfold isValidEmail. cbn [ToString].
  rewrite matches_Lang, Lang_re_email. split.
  - intros (l & d & t & -> & Hl & Hd & Ht & Al & Ad & At).
    apply forallb_email_char in Al as [Wl Nl], Ad as [Wd Nd], At as [Wt Nt].
    split.
    + rewrite existsb_app. cbn [existsb]. rewrite existsb_app. cbn [existsb].
      by rewrite Wl, Wd, Wt.
    + exists l, (d ++ 46 :: t). repeat split; try done.
      * rewrite in_app_iff. cbn [In]. intros [?|[?|?]]; [done | lia | done].
      * by exists d, t.
  - intros [Hw (l & r & -> & Hl & Nl & Nr & d & t & -> & Hd & Ht)].
    rewrite existsb_app in Hw. cbn [existsb] in Hw.
    rewrite existsb_app in Hw. cbn [existsb] in Hw.
    apply orb_false_iff in Hw as [Wl [_ [Wd [_ Wt]%orb_false_iff]%orb_false_iff]%orb_false_iff].
    rewrite in_app_iff in Nr. cbn [In] in Nr.
    exists l, d, t. repeat split; try done;
      apply forallb_email_char; split; tauto.
Qed.

(** An accepted address has at least five code units. *)
Lemma isValidEmail_length s :
  isValidEmail (VStr s) = true -> (5 <= length s)%nat.
Proof.
  unfold isValidEmail. cbn [ToString]. rewrite matches_Lang, Lang_re_email.
  intros (l & d & t & -> & Hl & Hd & Ht & _).
  rewrite length_app. cbn [length]. rewrite length_app. cbn [length].
  destruct l, d, t; try done. cbn [length]. lia.
Qed.

(** ** Strength against validity *)

Lemma score_sum_six v s : v <> Modern -> score_sum v s <= 6.
Proof.
  intros Hv. unfold score_sum.
  pose proof (b2n_le_1 (8 <=? N.of_nat (length s))).
  pose proof (b2n_le_1 (12 <=? N.of_nat (length s))).
  pose proof (b2n_le_1 (existsb is_lower s)).
  pose proof (b2n_le_1 (existsb is_upper s)).
  pose proof (b2n_le_1 (existsb is_digit s)).
  pose proof (b2n_le_1 (existsb is_symbol s)).
  destruct v; [| done |]; lia.
Qed.

Lemma spec_band_not_strong n : n <= 6 -> spec_band n <> strong.
Proof.
  intros Hn. unfold spec_band.
  repeat match goal with
         | |- context [?a <=? ?b] => destruct (N.leb_spec a b)
         end; try done; lia.
Qed.

(** X2.  In the two six-check classes (the first of [script.js] and
    [script-merged.js]) no password is ever rated strong: the score stops
    at 6 and the last row of the table is out of reach. *)
Theorem six_checks_never_strong :
  forall s : jsstring,
    (exists l, calculatePasswordStrength Fixed (VStr s) = Ok l
               /\ lband l <> strong)
    /\ (exists l, calculatePasswordStrength Merged (VStr s) = Ok l
                  /\ lband l <> strong).
Proof.
  intros s. split; eexists;
    (split; [apply calculatePasswordStrength_band |]);
    rewrite find_level_band; by apply spec_band_not_strong, score_sum_six.
Qed.

(** The eight-check class does reach the last row. *)
Example eight_checks_reach_strong :
  calculatePasswordStrength Modern (VStr (lit "Tr0ub4dor&3x!"))
  = Ok (Level 7 8 strong "Strong password").
Proof. reflexivity. Qed.

Lemma spec_band_at_least_fair n :
  3 <= n -> n <= 8 -> 1 <= band_rank (spec_band n).
Proof.
  intros H3 H8. unfold spec_band.
  repeat match goal with
         | |- context [?a <=? ?b] => destruct (N.leb_spec a b)
         end; simpl; lia.
Qed.

(** X3.  In both classes of [script.js], a password that
    [validatePassword] accepts is rated fair or better by
    [calculatePasswordStrength]: it earns the length point and the three
    class points. *)
Theorem accepted_password_at_least_fair (v : variant) (s : jsstring) :
  v <> Merged ->
  validatePassword v (VStr s) = Ok (Validation true None) ->
  exists l,
    calculatePasswordStrength v (VStr s) = Ok l
    /\ 1 <= band_rank (lband l).
Proof.
  intros Hv Hvalid. eexists. split; [apply calculatePasswordStrength_band |].
  rewrite find_level_band.
  apply spec_band_at_least_fair; [| apply score_sum_le_8].
  unfold validatePassword in Hvalid.
  destruct (negb (truthy (VStr s))); [discriminate Hvalid |].
  cbn [js_length bind] in Hvalid.
  destruct (N.ltb_spec (N.of_nat (length s)) 8) as [|Hlen];
    [discriminate Hvalid |].
  assert (test re_complexity s = true) as Hc.
  { destruct v; [| | done]; cbn [ToString] in Hvalid;
      by destruct (test re_complexity s). }
  apply test_complexity_sound in Hc. unfold contains_all in Hc.
  apply andb_true_iff in Hc as [[Hl Hu]%andb_true_iff Hd].
  unfold score_sum. rewrite Hl, Hu, Hd.
  destruct (N.leb_spec 8 (N.of_nat (length s))); [| lia].
  cbn [b2n]. lia.
Qed.

Lemma accepted_password_at_least_fair_witness :
  exists l,
    calculatePasswordStrength Fixed (VStr (lit "Abcdefg1")) = Ok l
    /\ 1 <= band_rank (lband l).
Proof.
  apply (accepted_password_at_least_fair Fixed (lit "Abcdefg1"));
    [discriminate | reflexivity].
Defined.

(** [script-merged.js] accepts passwords that it rates weak. *)
Example merged_accepts_weak :
  validatePassword Merged (VStr (lit "abcdefgh")) = Ok (Validation true None)
  /\ calculatePasswordStrength Merged (VStr (lit "abcdefgh"))
     = Ok (Level 0 2 weak "Weak password").
Proof. split; reflexivity. Qed.

(** ** What the form validators write *)

Lemma write_slot_lookup v b i msg (d : gmap string element) j :
  write_slot v b i msg d !! j
  = if decide (i = j) then slot_after v b msg (d !! i) else d !! j.
Proof.
  unfold write_slot, slot_after.
  destruct b; [apply clearFieldError_lookup | apply showFieldError_lookup].
Qed.

Lemma slot_after_idem v b msg slot :
  slot_after v b msg (slot_after v b msg slot) = slot_after v b msg slot.
Proof. by destruct slot as [[]|], b, v. Qed.

Lemma slot_after_value v b msg slot :
  value <$> slot_after v b msg slot = value <$> slot.
Proof. by destruct slot as [[]|], b. Qed.

(** [validateRegisterForm] is its four writes in sequence. *)
Lemma validateRegisterForm_writes v userData (d : gmap string element) :
  validateRegisterForm v userData d
  = Ok (register_ok v userData,
        write_slot v (confirm_ok userData) "confirm-password-error"
          msg_mismatch
          (write_slot v (password_ok v userData) "register-password-error"
             (password_message v userData)
             (write_slot v (email_ok userData) "register-email-error"
                msg_email
                (write_slot v (name_ok userData) "name-error" msg_name d)))).
Proof.
  unfold validateRegisterForm, register_ok, write_slot, email_ok, password_ok,
    password_message, confirm_ok, strict_eq.
  rewrite name_guard. cbn [bind].
  destruct (validatePassword_total v (get userData "password")) as [r ->].
  cbn [bind].
  by destruct (name_ok userData), (isValidEmail _), (isValid r),
    (bool_decide _).
Qed.

Lemma validateLoginForm_writes v credentials (d : gmap string element) :
  validateLoginForm v credentials d
  = Ok (isValidEmail (get credentials "email")
        && truthy (get credentials "password"),
        write_slot v (truthy (get credentials "password")) "password-error"
          msg_required
          (write_slot v (isValidEmail (get credentials "email"))
             "email-error" msg_email d)).
Proof.
  unfold validateLoginForm, write_slot.
  rewrite password_missing_guard. cbn [bind].
  by destruct (isValidEmail _), (truthy _).
Qed.

(** X4.  [validateRegisterForm] writes its four error slots and nothing
    else: every other element is left as it is, no element is created or
    removed, and no input value changes. *)
Theorem validateRegisterForm_frame :
  forall (v : variant) (userData : gmap string jsval)
         (d : gmap string element),
  exists ok d',
    validateRegisterForm v userData d = Ok (ok, d')
    /\ (forall j, ~ In j register_slot_ids -> d' !! j = d !! j)
    /\ (forall j, value <$> d' !! j = value <$> d !! j).
Proof.
  intros v userData d. eexists _, _.
  split; [apply validateRegisterForm_writes |]. split.
  - intros j Hj. cbn [register_slot_ids In] in Hj.
    rewrite !write_slot_lookup.
    repeat case_decide; try done; subst; tauto.
  - intros j. rewrite !write_slot_lookup.
    repeat case_decide; subst; rewrite ?slot_after_value; try done.
Qed.

(** X5.  Validating the same registration snapshot again changes nothing:
    the second call returns the same flag and leaves the document of the
    first call as it is. *)
Theorem validateRegisterForm_idempotent
    (v : variant) (userData : gmap string jsval)
    (d d' : gmap string element) (ok : bool) :
  validateRegisterForm v userData d = Ok (ok, d') ->
  validateRegisterForm v userData d' = Ok (ok, d').
Proof.
  rewrite !validateRegisterForm_writes. intros [= <- <-].
  f_equal. f_equal. apply map_eq. intros j.
  rewrite !write_slot_lookup.
  repeat case_decide; subst; try done; by rewrite slot_after_idem.
Qed.

Lemma validateRegisterForm_idempotent_witness :
  validateRegisterForm Fixed register_all_wrong register_slots_reported
  = Ok (false, register_slots_reported).
Proof.
  apply (validateRegisterForm_idempotent Fixed register_all_wrong
           register_slots).
  reflexivity.
Defined.

(** X6.  [validateLoginForm] returns for every snapshot, true exactly when
    the e-mail matches the pattern and the password is not empty (no
    length or complexity rule applies to a login password), and it writes
    nothing but its two slots. *)
Theorem validateLoginForm_verdict :
  forall (v : variant) (credentials : gmap string jsval)
         (d : gmap string element),
  exists d',
    validateLoginForm v credentials d
    = Ok (isValidEmail (get credentials "email")
          && truthy (get credentials "password"), d')
    /\ (forall j, ~ In j login_slots -> d' !! j = d !! j)
    /\ (forall j, value <$> d' !! j = value <$> d !! j).
Proof.
  intros v credentials d. eexists.
  split; [apply validateLoginForm_writes |]. split.
  - intros j Hj. cbn [login_slots In] in Hj.
    rewrite !write_slot_lookup.
    repeat case_decide; try done; subst; tauto.
  - intros j. rewrite !write_slot_lookup.
    repeat case_decide; subst; rewrite ?slot_after_value; try done.
Qed.

(** A login password may fail every rule of [validatePassword]. *)
Example validateLoginForm_accepts_short_password :
  fst <$> (match validateLoginForm Fixed
                   (<["email"%string := VStr (lit "user@example.com")]>
                      (<["password"%string := VStr (lit "x")]> ∅)) ∅ with
           | Ok r => Some r
           | Throw _ => None
           end) = Some true.
Proof. reflexivity. Qed.

(** ** Runs of the registration handler *)

Lemma validated_app v (l1 l2 : list effect) :
  Forall (validated v) l1 -> Forall (validated v) l2 ->
  Forall (validated v) (l1 ++ l2).
Proof. intros. by apply Forall_app. Qed.

Lemma fixed_handleRegister_validated userData st :
  Forall (validated Fixed) (log st) ->
  Forall (validated Fixed) (log (FixedSequencer.handleRegister userData st)).
Proof.
  destruct st as [flag d p l]. unfold FixedSequencer.handleRegister.
  cbn [registrationInProgress doc pending log]. intros Hl.
  destruct flag; cbn [log].
  - by repeat (apply validated_app; [| by repeat constructor]).
  - rewrite validateRegisterForm_writes.
    destruct (register_ok Fixed userData) eqn:Hok; cbn [log];
      unfold FixedSequencer.finally; cbn [log];
      repeat (apply validated_app; [| by repeat constructor]); done.
Qed.

Lemma fixed_resume_validated i uuid st :
  Forall (validated Fixed) (log st) ->
  Forall (validated Fixed) (log (FixedSequencer.resume i uuid st)).
Proof.
  destruct st as [flag d p l]. unfold FixedSequencer.resume.
  cbn [registrationInProgress doc pending log]. intros Hl.
  destruct (p !! i) as [[userData|ms|ms [|]]|]; cbn [log]; try done.
  - destruct (authenticateUser register uuid userData) as [[[|] u tk]|e];
      cbn [success log]; unfold FixedSequencer.catch, FixedSequencer.finally;
      cbn [log]; try done;
      by (apply validated_app; [| by repeat constructor]).
  - unfold FixedSequencer.finally. cbn [log].
    by (apply validated_app; [| by repeat constructor]).
  - by (apply validated_app; [| by repeat constructor]).
Qed.

Lemma merged_step_validated ev st :
  Forall (validated Merged) (log st) ->
  Forall (validated Merged) (log (MergedSequencer.step st ev)).
Proof.
  destruct st as [flag d p l]. intros Hl. cbn [log] in Hl.
  destruct ev as [userData|i uuid]; cbn [MergedSequencer.step].
  - unfold MergedSequencer.handleRegister.
    cbn [registrationInProgress doc pending log].
    rewrite validateRegisterForm_writes.
    destruct (register_ok Merged userData) eqn:Hok; cbn [log];
      repeat (apply validated_app; [| by repeat constructor]); done.
  - unfold MergedSequencer.resume.
    cbn [registrationInProgress doc pending log].
    destruct (p !! i) as [[userData|ms|ms [|]]|]; cbn [log]; try done;
      by (apply validated_app; [| by repeat constructor]).
Qed.

(** X7.  Whatever the events, the registration handler starts its
    simulated call only for a snapshot that passes the four checks of
    [validateRegisterForm]: every call recorded in a run of the first
    class of [script.js], and of [script-merged.js], is for such a
    snapshot. *)
Theorem register_calls_validated :
  forall (d : gmap string element) (evs : list event),
    Forall (validated Fixed) (log (FixedSequencer.run d evs))
    /\ Forall (validated Merged) (log (MergedSequencer.run d evs)).
Proof.
  intros d evs. split.
  - unfold FixedSequencer.run.
    assert (Forall (validated Fixed) (log (FixedSequencer.init d))) as H
        by constructor.
    revert H. generalize (FixedSequencer.init d).
    induction evs as [|ev evs IH]; intros st Hst; [done |].
    apply IH. destruct ev;
      [by apply fixed_handleRegister_validated
      | by apply fixed_resume_validated].
  - unfold MergedSequencer.run.
    assert (Forall (validated Merged) (log (MergedSequencer.init d))) as H
        by constructor.
    revert H. generalize (MergedSequencer.init d).
    induction evs as [|ev evs IH]; intros st Hst; [done |].
    apply IH. by apply merged_step_validated.
Qed.

(** X8.  The flag of the first class of [script.js] cannot stay up: from
    every state the handler reaches, letting the event loop run the
    pending task three times in a row brings the flag down with nothing
    left pending, whether the call succeeds or fails. *)
Theorem registration_flag_released :
  forall (d : gmap string element) (evs : list event)
         (uuid1 uuid2 uuid3 : jsstring),
    let st :=
      fold_left FixedSequencer.step
        [Resume 0 uuid1; Resume 0 uuid2; Resume 0 uuid3]
        (FixedSequencer.run d evs) in
    registrationInProgress st = false /\ pending st = [].
Proof.
  intros d evs uuid1 uuid2 uuid3.
  pose proof (FixedGuard.Inv_run d evs) as HI.
  destruct (FixedSequencer.run d evs) as [flag dd p l].
  destruct HI as [[Hf Hp]|[Hf (t & Hp & Ht)]];
    cbn [registrationInProgress pending] in Hf, Hp; subst flag p.
  - by cbn.
  - destruct Ht as [Ht| ->]; [| by cbn].
    destruct t as [userData|ms|ms cb]; [| by cbn | done].
    cbn -[authenticateUser].
    unfold FixedSequencer.resume at 3. cbn -[authenticateUser].
    destruct (authenticateUser register uuid1 userData) as [[[|] u tk]|e];
      by cbn.
Qed.

(** * The helpers around the validators *)

(** ** [includes] and the classification of failures *)

Lemma starts_with_spec sub s :
  starts_with sub s = true <-> exists post, s = sub ++ post.
Proof.
  revert s. induction sub as [|a sub IH]; intros s; simpl.
  - split; [by exists s | done].
  - destruct s as [|b s].
    + split; [done | by intros [post H]].
    + rewrite andb_true_iff, N.eqb_eq, IH. split.
      * intros [-> [post ->]]. by exists post.
      * intros [post [= -> ->]]. split; [done | by exists post].
Qed.

Lemma includes_spec s sub :
  includes s sub = true <-> exists pre post, s = pre ++ sub ++ post.
Proof.
  induction s as [|c s IH]; cbn [includes];
    rewrite orb_true_iff, starts_with_spec.
  - split.
    + intros [[post H]|H]; [by exists [], post | done].
    + intros (pre & post & H). left.
      destruct pre; [by exists post |]. discriminate H.
  - rewrite IH. split.
    + intros [[post H]|(pre & post & ->)]; [by exists [], post |].
      by exists (c :: pre), post.
    + intros ([|c' pre] & post & H).
      * left. by exists post.
      * right. injection H as -> ->. by exists pre, post.
Qed.

Lemma includes_occurs m sub : includes m (lit sub) = true <-> occurs sub m.
Proof. apply includes_spec. Qed.

Lemma includes_not_occurs m sub :
  includes m (lit sub) = false <-> ~ occurs sub m.
Proof. rewrite <- includes_occurs. by destruct (includes m (lit sub)). Qed.

(** X9.  [handleAuthError] sorts a failure by what its message contains,
    case-sensitively and in this order: "network" or "Network" gives the
    network message even when the message also speaks of credentials,
    else "credentials" or "Invalid" gives the credentials message, else
    the generic message is shown. *)
Theorem auth_error_message_classes :
  forall (v : variant) (m : jsstring),
    let network := occurs "network" m \/ occurs "Network" m in
    let credentials := occurs "credentials" m \/ occurs "Invalid" m in
    (network -> auth_error_message v m = msg_auth_network v)
    /\ (~ network -> credentials ->
        auth_error_message v m = msg_auth_credentials v)
    /\ (~ network -> ~ credentials ->
        auth_error_message v m = msg_auth_generic).
Proof.
  intros v m network credentials. unfold auth_error_message.
  destruct (includes m (lit "network")) eqn:E1;
    [apply includes_occurs in E1 | apply includes_not_occurs in E1];
    (destruct (includes m (lit "Network")) eqn:E2;
     [apply includes_occurs in E2 | apply includes_not_occurs in E2]);
    cbn [orb]; try (repeat split; intros; subst network; tauto).
  destruct (includes m (lit "credentials")) eqn:E3;
    [apply includes_occurs in E3 | apply includes_not_occurs in E3];
    (destruct (includes m (lit "Invalid")) eqn:E4;
     [apply includes_occurs in E4 | apply includes_not_occurs in E4]);
    cbn [orb]; repeat split; intros; subst network credentials; tauto.
Qed.

(** The match is case-sensitive, and the network test comes first. *)
Example auth_error_message_examples :
  auth_error_message Fixed (lit "NETWORK DOWN") = msg_auth_generic
  /\ auth_error_message Fixed (lit "Invalid network credentials")
     = msg_auth_network Fixed.
Proof. split; reflexivity. Qed.

(** X10.  The two failures [authenticateUser] can raise are both
    recognised by [handleAuthError]: test@network.com ends in the network
    message and test@error.com in the credentials message, so the generic
    message is never shown for the simulated call. *)
Theorem mock_failures_classified
    (v : variant) (type : auth_type) (uuid : jsstring)
    (credentials : gmap string jsval) (e : exn) :
  authenticateUser type uuid credentials = Throw e ->
  (get credentials "email" = VStr (lit "test@network.com")
   /\ auth_error_message v (lit (error_message e)) = msg_auth_network v)
  \/ (get credentials "email" = VStr (lit "test@error.com")
      /\ auth_error_message v (lit (error_message e))
         = msg_auth_credentials v).
Proof.
  unfold authenticateUser.
  destruct (strict_eq _ (VStr (lit "test@error.com"))) eqn:E1.
  - intros [= <-]. right. split; [by apply strict_eq_true |].
    by destruct v.
  - destruct (strict_eq _ (VStr (lit "test@network.com"))) eqn:E2;
      [| discriminate].
    intros [= <-]. left. split; [by apply strict_eq_true |].
    by destruct v.
Qed.

Lemma mock_failures_classified_witness :
  (get (<["email"%string := VStr (lit "test@error.com")]> ∅) "email"
   = VStr (lit "test@network.com")
   /\ auth_error_message Fixed (lit (error_message (Error "Invalid credentials")))
      = msg_auth_network Fixed)
  \/ (get (<["email"%string := VStr (lit "test@error.com")]> ∅) "email"
      = VStr (lit "test@error.com")
      /\ auth_error_message Fixed
           (lit (error_message (Error "Invalid credentials")))
         = msg_auth_credentials Fixed).
Proof.
  apply (mock_failures_classified Fixed login []
           (<["email"%string := VStr (lit "test@error.com")]> ∅)
           (Error "Invalid credentials")).
  reflexivity.
Defined.

(** ** [debounce] *)

Section Debounce.

Context {A : Type}.

Lemma call_args_snoc (evs : list (timer_event A)) ev :
  call_args (evs ++ [ev])
  = call_args evs ++ match ev with Call a => [a] | Fire _ => [] end.
Proof.
  unfold call_args. rewrite omap_app. by destruct ev.
Qed.

Lemma debounce_run_snoc (evs : list (timer_event A)) ev :
  debounce_run (evs ++ [ev]) = debounce_step (debounce_run evs) ev.
Proof. unfold debounce_run. by rewrite fold_left_app. Qed.

Lemma debounce_call_inv (received : list A) (a : A) (st : debounced A) :
  debounce_inv received st ->
  db_timers (debounce_call a st) = [(db_next st, a)]
  /\ db_calls (debounce_call a st) = db_calls st
  /\ debounce_inv (received ++ [a]) (debounce_call a st).
Proof.
  destruct st as [t timers n calls]. unfold debounce_inv, debounce_call.
  cbn [db_timeout db_timers db_next db_calls].
  intros [[-> Hsub]|(id & a0 & -> & -> & before & -> & Hsub)].
  - assert (clearTimeout t (@nil (nat * A)) = []) as ->
        by (by destruct t).
    repeat split. right. exists n, a. repeat split.
    by exists received.
  - cbn [clearTimeout]. rewrite filter_cons. cbn [fst].
    case_decide; [done |]. rewrite filter_nil.
    repeat split. right. exists n, a. repeat split.
    exists (before ++ [a0]). split; [done |].
    by apply sublist_inserts_r.
Qed.

Lemma debounce_fire_inv (received : list A) id (st : debounced A) :
  debounce_inv received st -> debounce_inv received (debounce_fire id st).
Proof.
  destruct st as [t timers n calls]. unfold debounce_inv, debounce_fire.
  cbn [db_timeout db_timers db_next db_calls].
  intros [[-> Hsub]|(id0 & a0 & -> & -> & before & -> & Hsub)].
  - cbn [find]. by left.
  - cbn [find fst]. case_bool_decide as Hid.
    + subst id0. cbn [db_timers db_calls]. left.
      rewrite filter_cons. cbn [fst]. case_decide; [done |].
      rewrite filter_nil. split; [done |].
      by apply sublist_app.
    + right. exists id0, a0. repeat split. by exists before.
Qed.

Lemma debounce_run_inv (evs : list (timer_event A)) :
  debounce_inv (call_args evs) (debounce_run evs).
Proof.
  induction evs as [|ev evs IH] using rev_ind.
  - left. split; [done | constructor].
  - rewrite debounce_run_snoc, call_args_snoc. destruct ev as [a|id].
    + by apply debounce_call_inv.
    + rewrite app_nil_r. by apply debounce_fire_inv.
Qed.

End Debounce.

(** X11.  After a call of a debounced function, whatever calls and timers
    came before, exactly one timer is pending and it holds the arguments
    of that call; the call itself does not run [func], and when the timer
    fires [func] runs once, with those arguments, and nothing is left
    pending. *)
Theorem debounce_last_call_wins :
  forall (A : Type) (evs : list (timer_event A)) (a : A),
    let st := debounce_run (evs ++ [Call a]) in
    exists id,
      db_timers st = [(id, a)]
      /\ db_calls st = db_calls (debounce_run evs)
      /\ db_calls (debounce_fire id st) = db_calls st ++ [a]
      /\ db_timers (debounce_fire id st) = [].
Proof.
  intros A evs a st. subst st. rewrite debounce_run_snoc.
  cbn [debounce_step].
  destruct (debounce_call_inv (call_args evs) a (debounce_run evs)
              (debounce_run_inv evs)) as (Ht & Hc & _).
  exists (db_next (debounce_run evs)). split; [done |]. split; [done |].
  unfold debounce_fire. rewrite Ht. cbn [find fst].
  rewrite bool_decide_eq_true_2 by done.
  cbn [db_calls db_timers]. split; [done |].
  rewrite filter_cons. cbn [fst]. case_decide; [done |].
  rewrite filter_nil. by destruct (db_timeout _).
Qed.

(** X12.  A debounced function runs [func] only with arguments it has
    received, in the order received and each call at most once: the calls
    of [func] are a sublist of the calls received. *)
Theorem debounce_calls_sublist :
  forall (A : Type) (evs : list (timer_event A)),
    sublist (db_calls (debounce_run evs)) (call_args evs)
    /\ (length (db_timers (debounce_run evs)) <= 1)%nat.
Proof.
  intros A evs.
  destruct (debounce_run_inv evs)
    as [[-> Hsub]|(id & a & -> & _ & before & -> & Hsub)].
  - split; [done | cbn; lia].
  - split; [by apply sublist_inserts_r | cbn; lia].
Qed.

(** ** [throttle] *)

Section Throttle.

Context {A : Type}.

Lemma throttle_run_snoc (evs : list (timer_event A)) ev :
  throttle_run (evs ++ [ev]) = throttle_step (throttle_run evs) ev.
Proof. unfold throttle_run. by rewrite fold_left_app. Qed.

Lemma throttle_step_inv (received : list A) ev (st : throttled A) :
  throttle_inv received st ->
  throttle_inv
    (received ++ match ev with Call a => [a] | Fire _ => [] end)
    (throttle_step st ev).
Proof.
  destruct st as [flag timers n calls]. unfold throttle_inv.
  cbn [th_inThrottle th_timers th_calls].
  intros [[[-> ->]|[-> [id ->]]] Hsub]; destruct ev as [a|id'];
    cbn [throttle_step]; unfold throttle_call, throttle_fire;
    cbn [th_inThrottle th_timers th_calls th_next negb].
  - split; [right; split; [done | by exists n] |].
    by apply sublist_app.
  - rewrite bool_decide_eq_false_2 by set_solver.
    cbn [th_inThrottle th_timers th_calls]. rewrite app_nil_r. auto.
  - split; [right; split; [done | by exists id] |].
    by apply sublist_inserts_r.
  - rewrite app_nil_r. case_bool_decide as Hin;
      cbn [th_inThrottle th_timers th_calls].
    + apply list_elem_of_singleton in Hin. subst id'.
      rewrite filter_cons. case_decide; [done |]. rewrite filter_nil. auto.
    + split; [right; split; [done | by exists id] | done].
Qed.

Lemma throttle_run_inv (evs : list (timer_event A)) :
  throttle_inv (call_args evs) (throttle_run evs).
Proof.
  induction evs as [|ev evs IH] using rev_ind.
  - split; [by left | constructor].
  - rewrite throttle_run_snoc, call_args_snoc.
    by apply throttle_step_inv.
Qed.

End Throttle.

(** X13.  A throttled function lets a call through exactly when none of
    its timers is pending: then [func] runs at once with the arguments of
    the call and one timer is set; while that timer is pending every call
    is dropped.  At most one timer is ever pending, and the calls of
    [func] are a sublist of the calls received. *)
Theorem throttle_gate :
  forall (A : Type) (evs : list (timer_event A)) (a : A),
    let st := throttle_run evs in
    (length (th_timers st) <= 1)%nat
    /\ sublist (th_calls st) (call_args evs)
    /\ (th_timers st = [] ->
        th_calls (throttle_call a st) = th_calls st ++ [a]
        /\ length (th_timers (throttle_call a st)) = 1%nat)
    /\ (th_timers st <> [] -> throttle_call a st = st).
Proof.
  intros A evs a st. subst st.
  destruct (throttle_run_inv evs) as [[[Hf Ht]|[Hf [id Ht]]] Hsub];
    rewrite Ht; unfold throttle_call; rewrite Hf; cbn [negb];
    repeat split; try done; cbn; try lia.
  by rewrite Ht.
Qed.

(** ** Real-time validation *)

Lemma accepts_blank v : accepts v [] = false.
Proof. by destruct v. Qed.

(** X14.  On a required password field, [validateInput] judges the
    trimmed value: in [script.js] its verdict is the verdict of
    [validatePassword] on the value without its surrounding white space,
    in [script-merged.js] it only asks for a value that is not blank; the
    verdict is returned and its negation is written to [aria-invalid]. *)
Theorem validateInput_password
    (v : variant) (i : input) (errorElement : option string)
    (d : gmap string element) :
  input_type i = "password"%string ->
  input_required i = true ->
  exists ok i' d',
    validateInput v (Some i) errorElement d = Ok (ok, Some i', d')
    /\ ok = match v with
            | Merged => truthy (VStr (trim (input_value i)))
            | _ => accepts v (trim (input_value i))
            end
    /\ input_ariaInvalid i' = Some (if ok then "false" else "true")%string
    /\ input_value i' = input_value i.
Proof.
  intros Htype Hreq. unfold validateInput. rewrite Htype, Hreq.
  cbn [andb]. rewrite (bool_decide_eq_false_2 (_ = "email"%string)) by done.
  rewrite (bool_decide_eq_true_2 (_ = "password"%string)) by done.
  cbn [andb]. unfold accepts.
  destruct (trim (input_value i)) as [|c s] eqn:E; cbn [truthy negb].
  - cbn [bind]. eexists _, _, _. split; [reflexivity |].
    by destruct v.
  - destruct v; cbn [andb];
      try (destruct (validatePassword_total Fixed (VStr (c :: s))) as [r ->]);
      try (destruct (validatePassword_total Modern (VStr (c :: s))) as [r ->]);
      cbn [bind]; try destruct (isValid r); cbn [negb bind];
      eexists _, _, _; (split; [reflexivity |]); by cbn.
Qed.

Lemma validateInput_password_witness :
  exists ok i' d',
    validateInput Fixed (Some sample_password_input) None ∅
    = Ok (ok, Some i', d')
    /\ ok = accepts Fixed (trim (input_value sample_password_input))
    /\ input_ariaInvalid i' = Some (if ok then "false" else "true")%string
    /\ input_value i' = input_value sample_password_input.
Proof.
  apply (validateInput_password Fixed sample_password_input None ∅);
    reflexivity.
Defined.

(** White space around a password is counted on submit and not while
    typing: eight characters of which the last is a space pass
    [validatePassword] on submit and fail the real-time check. *)
Example validateInput_trims_password :
  let i := Input "registerPassword" "password" "password" (lit "Abcdef1 ")
             true "" None None in
  accepts Fixed (input_value i) = true
  /\ exists i' d',
       validateInput Fixed (Some i) None ∅ = Ok (false, Some i', d').
Proof. split; [reflexivity |]. by eexists _, _. Qed.

(** ** The visibility toggle *)

Section TokenLists.

Lemma filter_absent (a b : string) (l : list string) :
  a ∉ l -> b ∉ l -> filter (fun y => y <> a /\ y <> b) l = l.
Proof.
  induction l as [|x l IH]; [done |].
  rewrite !not_elem_of_cons. intros [? ?] [? ?].
  rewrite filter_cons. case_decide; [by rewrite IH | intuition congruence].
Qed.

Lemma rename_token_absent (a b : string) (l : list string) :
  a ∉ l -> rename_token a b l = l.
Proof.
  unfold rename_token. induction l as [|x l IH]; [done |].
  rewrite not_elem_of_cons. intros [? ?]. cbn [map].
  rewrite bool_decide_eq_false_2 by done. by rewrite IH.
Qed.

(** In a class list that holds [a] and not [b], replacing [a] by [b]
    renames it in place. *)
Lemma classList_replace_rename (a b : string) (l : list string) :
  NoDup l -> a ∈ l -> b ∉ l ->
  classList_replace a b l = rename_token a b l.
Proof.
  intros Hnd Ha Hb. unfold classList_replace.
  rewrite bool_decide_eq_true_2 by done.
  pose proof (rename_token_absent a b) as Habs.
  unfold rename_token in *.
  induction l as [|x l IH]; [done |].
  apply NoDup_cons in Hnd as [Hx Hnd].
  apply not_elem_of_cons in Hb as [Hxb Hb].
  cbn [ordered_set_replace map].
  destruct (decide (x = a)) as [->|Hxa].
  - rewrite bool_decide_eq_true_2 by auto.
    rewrite (bool_decide_eq_true_2 (a = a)) by done.
    rewrite filter_absent by done. by rewrite Habs.
  - rewrite bool_decide_eq_false_2 by (intros [?|?]; congruence).
    rewrite (bool_decide_eq_false_2 (x = a)) by done.
    f_equal. apply IH; [done | | done].
    apply elem_of_cons in Ha as [?|?]; [congruence | done].
Qed.

Lemma rename_token_back (a b : string) (l : list string) :
  b ∉ l -> rename_token b a (rename_token a b l) = l.
Proof.
  unfold rename_token. induction l as [|x l IH]; [done |].
  rewrite not_elem_of_cons. intros [? ?]. cbn [map].
  rewrite IH by done. f_equal.
  destruct (decide (x = a)) as [->|?].
  - rewrite (bool_decide_eq_true_2 (a = a)) by done.
    by rewrite bool_decide_eq_true_2.
  - rewrite (bool_decide_eq_false_2 (x = a)) by done.
    by rewrite bool_decide_eq_false_2.
Qed.

Lemma rename_token_elem (a b : string) (l : list string) :
  a <> b -> a ∈ l -> b ∈ rename_token a b l /\ a ∉ rename_token a b l.
Proof.
  intros Hab. unfold rename_token.
  induction l as [|x l IH]; [by intros ?%elem_of_nil |].
  intros Ha. cbn [map]. destruct (decide (x = a)) as [->|Hxa].
  - rewrite bool_decide_eq_true_2 by done. split; [by left |].
    rewrite not_elem_of_cons. split; [done |].
    clear IH Ha. induction l as [|y l IHl]; [by intros ?%elem_of_nil |].
    cbn [map]. rewrite not_elem_of_cons. split; [| done].
    case_bool_decide; congruence.
  - rewrite bool_decide_eq_false_2 by done.
    apply elem_of_cons in Ha as [?|Ha]; [congruence |].
    destruct (IH Ha) as [? ?]. split; [by right |].
    rewrite not_elem_of_cons. auto.
Qed.

Lemma rename_token_NoDup (a b : string) (l : list string) :
  NoDup l -> b ∉ l -> NoDup (rename_token a b l).
Proof.
  intros Hnd Hb. unfold rename_token.
  apply NoDup_fmap_2_strong; [| done].
  intros x y Hx Hy. repeat case_bool_decide; intros; subst; try done.
Qed.

End TokenLists.

(** X15.  Two clicks on the visibility toggle bring the field back: for a
    password input whose icon has the class [fa-eye] and not
    [fa-eye-slash], the first click makes the input a text input with the
    icon [fa-eye-slash] in the place of [fa-eye], and the second restores
    the input and the class list of the icon exactly, with the label "Show
    password". *)
Theorem togglePasswordVisibility_twice
    (v : variant) (t : toggle) (i : input) (icon : list string) :
  toggle_input t = Some i ->
  toggle_icon t = Some icon ->
  input_type i = "password"%string ->
  NoDup icon ->
  "fa-eye"%string ∈ icon ->
  "fa-eye-slash"%string ∉ icon ->
  exists t1,
    togglePasswordVisibility v t = Ok t1
    /\ input_type <$> toggle_input t1 = Some "text"%string
    /\ toggle_icon t1 = Some (rename_token "fa-eye" "fa-eye-slash" icon)
    /\ togglePasswordVisibility v t1
       = Ok (Toggle (Some i) (Some icon) (Some "Show password"%string)).
Proof.
  intros Hi Hicon Htype Hnd Heye Hslash.
  unfold togglePasswordVisibility at 1. rewrite Hi, Hicon, Htype.
  rewrite bool_decide_eq_true_2 by done.
  eexists. split; [reflexivity |]. cbn [toggle_input toggle_icon fmap].
  rewrite (classList_replace_rename _ _ icon) by done.
  split; [done |]. split; [done |].
  unfold togglePasswordVisibility. cbn [toggle_input toggle_icon].
  cbn [set_type input_type].
  rewrite bool_decide_eq_false_2 by done.
  destruct (rename_token_elem "fa-eye" "fa-eye-slash" icon) as [Hin Hout];
    [done | done |].
  rewrite classList_replace_rename;
    [| by apply rename_token_NoDup | done | done].
  rewrite rename_token_back by done.
  destruct i. cbn in Htype. subst. reflexivity.
Qed.

Lemma togglePasswordVisibility_twice_witness :
  exists t1,
    togglePasswordVisibility Fixed sample_toggle = Ok t1
    /\ input_type <$> toggle_input t1 = Some "text"%string
    /\ toggle_icon t1
       = Some (rename_token "fa-eye" "fa-eye-slash" ["fas"; "fa-eye"]%string)
    /\ togglePasswordVisibility Fixed t1
       = Ok (Toggle (Some sample_password_input)
               (Some ["fas"; "fa-eye"]%string) (Some "Show password"%string)).
Proof.
  apply (togglePasswordVisibility_twice Fixed sample_toggle
           sample_password_input ["fas"; "fa-eye"]%string);
    first [ reflexivity | apply (bool_decide_unpack _); vm_compute; exact I ].
Defined.

(** X16.  While a password is shown, it is not checked: after a click on
    the toggle the input has the type [text], and [validateInput] accepts
    whatever it holds as long as it is not blank, in every class. *)
Theorem shown_password_not_checked
    (v : variant) (t : toggle) (i : input) (icon : list string)
    (errorElement : option string) (d : gmap string element) :
  toggle_input t = Some i ->
  toggle_icon t = Some icon ->
  input_type i = "password"%string ->
  truthy (VStr (trim (input_value i))) = true ->
  exists t1 i1,
    togglePasswordVisibility v t = Ok t1
    /\ toggle_input t1 = Some i1
    /\ input_value i1 = input_value i
    /\ exists i2 d',
         validateInput v (Some i1) errorElement d = Ok (true, Some i2, d').
Proof.
  intros Hi Hicon Htype Hvalue.
  unfold togglePasswordVisibility. rewrite Hi, Hicon, Htype.
  rewrite bool_decide_eq_true_2 by done.
  eexists _, _. split; [reflexivity |]. split; [reflexivity |].
  split; [reflexivity |].
  unfold validateInput. cbn [set_type input_value input_type input_required].
  rewrite Hvalue. cbn [negb]. rewrite andb_false_r.
  rewrite (bool_decide_eq_false_2 (_ = "email"%string)) by done.
  rewrite (bool_decide_eq_false_2 (_ = "password"%string)) by done.
  rewrite andb_false_r. cbn [andb bind]. by eexists _, _.
Qed.

Lemma shown_password_not_checked_witness :
  exists t1 i1,
    togglePasswordVisibility Fixed weak_password_toggle = Ok t1
    /\ toggle_input t1 = Some i1
    /\ input_value i1 = lit "x"
    /\ exists i2 d',
         validateInput Fixed (Some i1) None ∅ = Ok (true, Some i2, d').
Proof.
  apply (shown_password_not_checked Fixed weak_password_toggle
           (Input "registerPassword" "password" "password" (lit "x") true
              "Password" None None)
           ["fas"; "fa-eye"]%string None ∅); reflexivity.
Defined.

(** * Toasts and the login handler *)

(** ** The life of a toast *)

Section Toasts.

Lemma elem_of_delete_other {A : Type} (l : list A) i (t k : A) :
  l !! i = Some t -> k ∈ l -> k <> t -> k ∈ delete i l.
Proof.
  revert i. induction l as [|x l IH]; intros i Hi Hk Hne; [done |].
  destruct i as [|i]; cbn in Hi |- *.
  - injection Hi as ->. apply elem_of_cons in Hk as [?|?]; [done | done].
  - apply elem_of_cons in Hk as [->|Hk]; [by left |].
    right. by apply (IH i).
Qed.

Lemma showToast_cases v message type h h' :
  showToast v message type h = Ok h' ->
  h' = h
  \/ (toasts h' = toasts h ++ [Toast (next_toast h) type message false]
      /\ toast_tasks h'
         = toast_tasks h
           ++ [AnimationFrame (next_toast h); HideToast (next_toast h)]).
Proof.
  unfold showToast, toasts.
  destruct (toastContainer h) as [children|] eqn:E, v; cbn [bind];
    intros [= <-]; cbn [toastContainer toast_tasks default]; auto.
Qed.

Lemma showToast_covered v message type h h' :
  toasts_covered h -> showToast v message type h = Ok h' ->
  toasts_covered h'.
Proof.
  intros Hcov [->|[Ht Hk]]%showToast_cases; [done |].
  intros t. rewrite Ht, Hk, elem_of_app, list_elem_of_singleton.
  intros [Hin| ->].
  - destruct (Hcov t Hin) as (k & Hk' & Hr). exists k.
    split; [| done]. apply elem_of_app. by left.
  - exists (HideToast (next_toast h)). split; [| by left].
    apply elem_of_app. right. set_solver.
Qed.

Lemma toasts_fmap (f : list toast -> list toast) c n ks :
  f [] = [] -> toasts (ToastHost (f <$> c) n ks) = f (default [] c).
Proof. intros Hf. unfold toasts. by destruct c. Qed.

Lemma elem_of_set_show id b children t :
  t ∈ set_show id b children ->
  exists t0, t0 ∈ children /\ toast_id t0 = toast_id t.
Proof.
  unfold set_show. intros (t0 & -> & Hin)%list_elem_of_fmap.
  exists t0. split; [done |]. by case_bool_decide.
Qed.

Lemma toast_fire_covered i h :
  toasts_covered h -> toasts_covered (toast_fire i h).
Proof.
  intros Hcov. unfold toast_fire.
  destruct (toast_tasks h !! i) as [k0|] eqn:Hi; [| done].
  destruct k0 as [id|id|id]; intros t; rewrite toasts_fmap by done;
    cbn [toast_tasks].
  - intros (t0 & Hin & <-)%elem_of_set_show.
    destruct (Hcov t0 Hin) as (k & Hk & Hr). exists k. split; [| done].
    apply (elem_of_delete_other _ _ _ _ Hi Hk).
    by destruct Hr as [-> | ->].
  - intros (t0 & Hin & <-)%elem_of_set_show.
    destruct (Hcov t0 Hin) as (k & Hk & Hr).
    destruct (decide (toast_id t0 = id)) as [Heq|Hne].
    + exists (RemoveToast id).
      split; [apply elem_of_app; right; set_solver |].
      right. by rewrite Heq.
    + exists k. split; [| done]. apply elem_of_app. left.
      apply (elem_of_delete_other _ _ _ _ Hi Hk).
      destruct Hr as [-> | ->]; congruence.
  - intros [Hid Hin]%list_elem_of_filter.
    destruct (Hcov t Hin) as (k & Hk & Hr). exists k. split; [| done].
    apply (elem_of_delete_other _ _ _ _ Hi Hk).
    destruct Hr as [-> | ->]; congruence.
Qed.

Lemma toast_step_covered v h ev :
  toasts_covered h -> toasts_covered (toast_step v h ev).
Proof.
  intros Hcov. destruct ev as [message type|i]; cbn [toast_step].
  - destruct (showToast v message type h) as [h'|e] eqn:E; [| done].
    by apply (showToast_covered v message type h).
  - by apply toast_fire_covered.
Qed.

End Toasts.

(** X17.  No toast outlives its timers: starting from a page without
    toast, whatever toasts are shown and whichever callbacks have run,
    every toast in the container has a timer pending that hides or removes
    it, so that once no callback is pending the container is empty. *)
Theorem toasts_are_removed :
  forall (v : variant) (has_container : bool) (evs : list toast_event),
    let h :=
      toast_run v
        (ToastHost (if has_container then Some [] else None) 0 []) evs in
    toasts_covered h /\ (toast_tasks h = [] -> toasts h = []).
Proof.
  intros v has_container evs h.
  assert (toasts_covered h) as Hcov.
  { subst h. unfold toast_run.
    assert (toasts_covered
              (ToastHost (if has_container then Some [] else None) 0 []))
      as H0.
    { intros t. unfold toasts. destruct has_container; cbn; set_solver. }
    revert H0. generalize (ToastHost (if has_container then Some [] else None) 0 []).
    induction evs as [|ev evs IH]; intros h0 H0; [done |].
    apply IH. by apply toast_step_covered. }
  split; [done |]. intros Hnone.
  destruct (toasts h) as [|t ts] eqn:E; [done |].
  destruct (Hcov t) as (k & Hk & _); [rewrite E; by left |].
  rewrite Hnone in Hk. by apply elem_of_nil in Hk.
Qed.

(** ** The forgotten password *)

Lemma isValidEmail_truthy s :
  isValidEmail (VStr s) = true -> truthy (VStr s) = true.
Proof. by destruct s. Qed.

Lemma showToast_container v message type h children :
  toastContainer h = Some children ->
  showToast v message type h
  = Ok (ToastHost (Some (children ++ [Toast (next_toast h) type message false]))
          (S (next_toast h))
          (toast_tasks h
           ++ [AnimationFrame (next_toast h); HideToast (next_toast h)])).
Proof. unfold showToast. intros ->. by destruct v. Qed.

(** X18.  On a page with a toast container [handleForgotPassword]
    returns, and the toasts it leaves are those of before followed by at
    most one new toast: the success toast "Password reset link sent to
    your email!" when the login e-mail input exists and holds an address
    that [isValidEmail] accepts, and otherwise a toast that is no success
    toast, or none. *)
Theorem handleForgotPassword_success
    (v : variant) (d : gmap string element) (h : toast_host)
    (children : list toast) :
  toastContainer h = Some children ->
  exists h' new,
    handleForgotPassword v d h = Ok h'
    /\ toasts h' = children ++ new
    /\ if valid_login_email d then
         new = [Toast (next_toast h) "success"
                  "Password reset link sent to your email!" false]
       else
         (length new <= 1)%nat
         /\ Forall (fun t => toast_type t <> "success"%string) new.
Proof.
  intros Hc. unfold valid_login_email, handleForgotPassword.
  assert (forall message type,
            type <> "success"%string ->
            exists h' new,
              showToast v message type h = Ok h'
              /\ toasts h' = children ++ new
              /\ (length new <= 1)%nat
              /\ Forall (fun t => toast_type t <> "success"%string) new)
    as Hother.
  { intros message type Hty. rewrite (showToast_container _ _ _ _ _ Hc).
    eexists _, [_]. split; [reflexivity |]. split; [reflexivity |].
    split; [done |]. by apply Forall_singleton. }
  destruct (d !! "loginEmail"%string) as [el|].
  - destruct (isValidEmail (VStr (value el))) eqn:Hvalid.
    + rewrite (isValidEmail_truthy _ Hvalid). cbn [negb].
      rewrite (showToast_container _ _ _ _ _ Hc).
      eexists _, _. split; [by destruct v |]. by split.
    + cbn [negb].
      destruct (negb (truthy (VStr (value el)))), v; by apply Hother.
  - destruct v; cbn [truthy negb]; try by apply Hother.
    exists h, []. unfold toasts. rewrite Hc, app_nil_r.
    split; [done |]. split; [done |]. split; [cbn; lia | constructor].
Qed.

Lemma handleForgotPassword_success_witness :
  exists h',
    handleForgotPassword Modern forgot_page (ToastHost (Some []) 0 []) = Ok h'
    /\ toasts h'
       = [Toast 0 "success" "Password reset link sent to your email!" false].
Proof.
  destruct (handleForgotPassword_success Modern forgot_page
              (ToastHost (Some []) 0 []) [] eq_refl)
    as (h' & new & E & Ht & Hnew).
  assert (valid_login_email forgot_page = true) as Hvalid by reflexivity.
  rewrite Hvalid in Hnew. exists h'. split; [exact E |].
  rewrite Ht, Hnew. reflexivity.
Defined.

(** ** The login handler *)

Section Login.

Lemma authenticateUser_accepted v type uuid c :
  v <> Merged -> not_sentinel v c ->
  exists r, authenticateUser type uuid c = Ok r /\ success r = true.
Proof.
  intros Hv [H1 H2]. unfold authenticateUser.
  rewrite (proj2 (strict_eq_false _ _) H1).
  assert (get c "email" <> VStr (lit "test@network.com")) as H3
      by (by destruct v).
  rewrite (proj2 (strict_eq_false _ _) H3). by eexists.
Qed.

Lemma merged_call_accepted c :
  not_sentinel Merged c -> merged_call login c = Ok tt.
Proof.
  intros [H1 _]. unfold merged_call.
  by rewrite (proj2 (strict_eq_false _ _) H1).
Qed.

Lemma handleLogin_valid v c p :
  login_ok c = true ->
  exists d,
    handleLogin v c p
    = Page d (setButtonLoading v true (page_button p)) (page_modal p)
        (page_toasts p) (page_location p) (page_tasks p ++ [LoginCall c])
        (page_uncaught p)
    /\ d = match v with
           | Merged => fun d => d
           | _ => updateStatus "login-status" "Signing in..."
           end
             (write_slot v (truthy (get c "password")) "password-error"
                msg_required
                (write_slot v (isValidEmail (get c "email")) "email-error"
                   msg_email (page_doc p))).
Proof.
  intros Hok. unfold handleLogin. rewrite validateLoginForm_writes.
  fold (login_ok c). rewrite Hok. eexists. split; [| reflexivity].
  by destruct v, p.
Qed.

Lemma handleLogin_invalid v c p :
  login_ok c = false ->
  handleLogin v c p
  = Page
      (write_slot v (truthy (get c "password")) "password-error" msg_required
         (write_slot v (isValidEmail (get c "email")) "email-error"
            msg_email (page_doc p)))
      (page_button p) (page_modal p) (page_toasts p) (page_location p)
      (page_tasks p) (page_uncaught p).
Proof.
  intros Hok. unfold handleLogin. rewrite validateLoginForm_writes.
  fold (login_ok c). by rewrite Hok.
Qed.

Lemma page_run_snoc v p evs ev :
  page_run v p (evs ++ [ev]) = page_step v (page_run v p evs) ev.
Proof. unfold page_run. by rewrite fold_left_app. Qed.

Lemma some_valid_submit_snoc evs ev :
  some_valid_submit (evs ++ [ev])
  = some_valid_submit evs
    || match ev with LoginSubmit c => login_ok c | _ => false end.
Proof.
  unfold some_valid_submit. rewrite existsb_app. cbn [existsb].
  by rewrite orb_false_r.
Qed.

(** The tasks of a successful call. *)
Lemma setButtonSuccess_tasks v p :
  exists extra,
    page_tasks (setButtonSuccess v p) = page_tasks p ++ extra
    /\ Forall (fun t => t = ClearBackground) extra
    /\ btn_disabled <$> page_button (setButtonSuccess v p)
       = btn_disabled <$> page_button p.
Proof.
  destruct p as [d b m h loc tasks unc]. unfold setButtonSuccess.
  cbn [page_button page_tasks]. destruct b as [b|].
  - exists [ClearBackground]. cbn [page_button page_tasks fmap].
    repeat split. by repeat constructor.
  - exists []. cbn [page_button page_tasks]. rewrite app_nil_r.
    by repeat split.
Qed.

Lemma showSuccessModal_frame v message p :
  page_tasks (showSuccessModal v message p) = page_tasks p
  /\ page_button (showSuccessModal v message p) = page_button p.
Proof. unfold showSuccessModal. by destruct v, (page_modal p). Qed.

Lemma disabled_after_loading v (b b0 : option button) (submitted : bool) :
  (if submitted then btn_disabled <$> b = (fun _ => true) <$> b0
   else b = b0) ->
  btn_disabled <$> setButtonLoading v true b = (fun _ => true) <$> b0.
Proof. destruct submitted, b as [[]|], b0 as [[]|]; by cbn. Qed.

Lemma button_inv_submit v p0 submitted c p :
  not_sentinel v c ->
  button_inv v p0 submitted p ->
  button_inv v p0 (submitted || login_ok c) (handleLogin v c p).
Proof.
  intros Hc [Hall Hb]. destruct (login_ok c) eqn:Hok.
  - rewrite orb_true_r.
    destruct (handleLogin_valid v c p Hok) as (d & -> & _).
    split; cbn [page_tasks page_button].
    + apply Forall_app. split; [done | by apply Forall_singleton].
    + apply (disabled_after_loading v _ _ submitted).
      destruct submitted; [done | by destruct Hb].
  - rewrite orb_false_r, (handleLogin_invalid v c p Hok). by split.
Qed.

Lemma button_inv_resume v p0 submitted i uuid p :
  button_inv v p0 submitted p ->
  button_inv v p0 submitted (login_resume v i uuid p).
Proof.
  intros [Hall Hb]. unfold login_resume.
  destruct (page_tasks p !! i) as [t|] eqn:Hi; [| by split].
  destruct submitted; [| destruct Hb as [Hnil _]; by rewrite Hnil in Hi].
  assert (call_accepted v t) as Ht
      by (eapply Forall_lookup_1; [exact Hall | exact Hi]).
  pose proof (Forall_delete _ _ i Hall) as Hdel.
  destruct p as [d b m h loc tasks unc].
  cbn [page_tasks page_button page_doc page_modal page_toasts page_location
       page_uncaught] in *.
  destruct t as [c| | |].
  - cbn [call_accepted] in Ht.
    assert (forall q,
              page_tasks q = delete i tasks -> page_button q = b ->
              forall last,
                call_accepted v last ->
                button_inv v p0 true
                  (with_task last
                     (showSuccessModal v "Welcome back to AlgoRhythm!"
                        (setButtonSuccess v q)))) as Hsuccess.
    { intros q Hq Hqb last Hlast.
      destruct (setButtonSuccess_tasks v q) as (extra & He & Hce & Hd).
      destruct (showSuccessModal_frame v "Welcome back to AlgoRhythm!"
                  (setButtonSuccess v q)) as [Hmt Hmb].
      split.
      - unfold with_task. cbn [page_tasks]. rewrite Hmt, He, Hq.
        apply Forall_app. split; [| by apply Forall_singleton].
        apply Forall_app. split; [done |].
        eapply Forall_impl; [exact Hce |]. by intros ? ->.
      - unfold with_task. cbn [page_button]. by rewrite Hmb, Hd, Hqb. }
    destruct v.
    + destruct (authenticateUser_accepted Fixed login uuid c) as (r & -> & ->);
        [done | done |].
      assert (forall q, page_tasks (with_doc (updateStatus "login-status" "Login successful") q) = page_tasks q
                        /\ page_button (with_doc (updateStatus "login-status" "Login successful") q) = page_button q) as Hwd by done.
      split.
      * unfold with_task. cbn [page_tasks].
        destruct (Hsuccess (Page d b m h loc (delete i tasks) unc)
                    eq_refl eq_refl LoginPause I) as [H1 _].
        unfold with_task in H1. cbn [page_tasks] in H1. exact H1.
      * unfold with_task. cbn [page_button].
        destruct (Hsuccess (Page d b m h loc (delete i tasks) unc)
                    eq_refl eq_refl LoginPause I) as [_ H2].
        unfold with_task in H2. cbn [page_button] in H2. exact H2.
    + destruct (authenticateUser_accepted Modern login uuid c) as (r & -> & ->);
        [done | done |].
      split.
      * unfold with_task. cbn [page_tasks].
        destruct (Hsuccess (Page d b m h loc (delete i tasks) unc)
                    eq_refl eq_refl LoginPause I) as [H1 _].
        unfold with_task in H1. cbn [page_tasks] in H1. exact H1.
      * unfold with_task. cbn [page_button].
        destruct (Hsuccess (Page d b m h loc (delete i tasks) unc)
                    eq_refl eq_refl LoginPause I) as [_ H2].
        unfold with_task in H2. cbn [page_button] in H2. exact H2.
    + rewrite (merged_call_accepted c Ht).
      by apply (Hsuccess (Page d b m h loc (delete i tasks) unc)).
  - split; [by destruct v | by destruct v].
  - split; [done |]. cbn [with_button page_button].
    rewrite <- Hb. by destruct b.
  - by split.
Qed.

Lemma button_inv_run v p0 evs :
  page_tasks p0 = [] ->
  no_sentinel_submit v evs ->
  button_inv v p0 (some_valid_submit evs) (page_run v p0 evs).
Proof.
  intros Hnil. induction evs as [|ev evs IH] using rev_ind; intros Hns.
  - unfold page_run. cbn [fold_left some_valid_submit existsb].
    split; [by rewrite Hnil | by split].
  - rewrite page_run_snoc, some_valid_submit_snoc.
    assert (no_sentinel_submit v evs) as Hns'.
    { intros c Hc. apply Hns, in_app_iff. by left. }
    specialize (IH Hns'). destruct ev as [c|i uuid|i]; cbn [page_step].
    + apply button_inv_submit; [| done].
      apply Hns, in_app_iff. right. by left.
    + rewrite orb_false_r. by apply button_inv_resume.
    + rewrite orb_false_r. destruct IH as [H1 H2]. by split.
Qed.

(** No pending call is for a snapshot that fails validation. *)
Lemma call_validated_step v p ev :
  Forall call_validated (page_tasks p) ->
  Forall call_validated (page_tasks (page_step v p ev)).
Proof.
  intros Hall. destruct ev as [c|i uuid|i]; cbn [page_step]; [| | done].
  - destruct (login_ok c) eqn:Hok.
    + destruct (handleLogin_valid v c p Hok) as (d & -> & _).
      cbn [page_tasks]. apply Forall_app. split; [done |].
      by apply Forall_singleton.
    + by rewrite (handleLogin_invalid v c p Hok).
  - unfold login_resume.
    destruct (page_tasks p !! i) as [t|] eqn:Hi; [| done].
    pose proof (Forall_delete _ _ i Hall) as Hdel.
    destruct p as [d b m h loc tasks unc].
    cbn [page_tasks page_button page_doc page_modal page_toasts
         page_location page_uncaught] in *.
    assert (forall q last,
              Forall call_validated (page_tasks q) ->
              call_validated last ->
              Forall call_validated
                (page_tasks
                   (with_task last
                      (showSuccessModal v "Welcome back to AlgoRhythm!"
                         (setButtonSuccess v q))))) as Hsuccess.
    { intros q last Hq Hlast.
      destruct (setButtonSuccess_tasks v q) as (extra & He & Hce & _).
      destruct (showSuccessModal_frame v "Welcome back to AlgoRhythm!"
                  (setButtonSuccess v q)) as [Hmt _].
      unfold with_task. cbn [page_tasks]. rewrite Hmt, He.
      apply Forall_app. split; [| by apply Forall_singleton].
      apply Forall_app. split; [done |].
      eapply Forall_impl; [exact Hce |]. by intros ? ->. }
    destruct t as [c| | |]; [| by destruct v | done | done].
    destruct v.
    + destruct (authenticateUser login uuid c) as [[[|] u tk]|e];
        cbn [success]; [| done |].
      * by apply (Hsuccess (Page d b m h loc (delete i tasks) unc)).
      * unfold login_failed. cbn [with_button page_toasts].
        by destruct (showToast Fixed _ "error" h).
    + destruct (authenticateUser login uuid c) as [[[|] u tk]|e];
        cbn [success]; [| done |].
      * by apply (Hsuccess (Page d b m h loc (delete i tasks) unc)).
      * unfold login_failed. cbn [with_button page_toasts].
        by destruct (showToast Modern _ "error" h).
    + destruct (merged_call login c) as [[]|e].
      * by apply (Hsuccess (Page d b m h loc (delete i tasks) unc)).
      * cbn [with_button page_toasts].
        by destruct (showToast Merged _ "error" h).
Qed.

End Login.

(** X19.  A login that goes through a valid submit never gets its button
    back: starting from a page with nothing pending, in every run whose
    submits avoid the addresses of the failing call, once a submit has
    passed validation the submit button is disabled, and it stays
    disabled whatever is resumed afterwards, the successful completion
    included ([setButtonSuccess] does not write [disabled]). *)
Theorem login_button_stays_disabled
    (v : variant) (p0 : page) (b0 : button) (evs : list page_event) :
  page_tasks p0 = [] ->
  page_button p0 = Some b0 ->
  no_sentinel_submit v evs ->
  some_valid_submit evs = true ->
  exists b,
    page_button (page_run v p0 evs) = Some b /\ btn_disabled b = true.
Proof.
  intros Hnil Hb0 Hns Hvalid.
  destruct (button_inv_run v p0 evs Hnil Hns) as [_ Hb].
  rewrite Hvalid, Hb0 in Hb.
  destruct (page_button (page_run v p0 evs)) as [b|]; [| done].
  exists b. split; [done |]. by injection Hb.
Qed.

Lemma login_button_stays_disabled_witness :
  exists b,
    page_button
      (page_run Fixed login_page
         [LoginSubmit login_valid; LoginResume 0 []; LoginResume 0 [];
          LoginResume 0 []]) = Some b
    /\ btn_disabled b = true.
Proof.
  apply (login_button_stays_disabled Fixed login_page
           (Button false false None "")); try reflexivity.
  intros c [[= <-]|[[=]|[[=]|[[=]|[]]]]]. split; discriminate.
Defined.

Lemma updateStatus_lookup i message (d : gmap string element) j :
  updateStatus i message d !! j
  = if decide (i = j) then
      (fun el => Element (value el) message (ariaLive el)) <$> d !! i
    else d !! j.
Proof.
  unfold updateStatus. destruct (d !! i) eqn:E.
  - rewrite lookup_insert. case_decide; [done | done].
  - case_decide; [by subst; rewrite E | done].
Qed.

Lemma login_status_after_submit v c (d : gmap string element) :
  write_slot v (truthy (get c "password")) "password-error" msg_required
    (write_slot v (isValidEmail (get c "email")) "email-error" msg_email d)
  !! "login-status"%string
  = d !! "login-status"%string.
Proof. rewrite !write_slot_lookup. by repeat case_decide. Qed.

Lemma setButtonLoading_off v b :
  v <> Merged ->
  setButtonLoading v false (setButtonLoading v true b)
  = setButtonLoading v false b.
Proof. by destruct v, b as [[]|]. Qed.

(** X20.  A failed login call in [script.js], on a page with a toast
    container: after the submit and the failure of the call the button is
    no longer loading and is enabled again, one error toast is added
    whose message is the classification of the failure, the status region
    reads "Login failed: " followed by the raw message, and nothing is
    left pending for the form. *)
Theorem login_failure_feedback
    (v : variant) (c : gmap string jsval) (p : page)
    (children : list toast) (uuid : jsstring) (e : exn) :
  v <> Merged ->
  login_ok c = true ->
  authenticateUser login uuid c = Throw e ->
  toastContainer (page_toasts p) = Some children ->
  let p2 := login_resume v (length (page_tasks p)) uuid (handleLogin v c p) in
  page_button p2 = setButtonLoading v false (page_button p)
  /\ toasts (page_toasts p2)
     = children
       ++ [Toast (next_toast (page_toasts p)) "error"
             (auth_error_message v (lit (error_message e))) false]
  /\ textContent <$> page_doc p2 !! "login-status"%string
     = (fun _ => ("Login failed: " ++ error_message e)%string)
         <$> page_doc p !! "login-status"%string
  /\ page_tasks p2 = page_tasks p
  /\ page_modal p2 = page_modal p
  /\ page_uncaught p2 = page_uncaught p.
Proof.
  intros Hv Hok Hauth Hcontainer p2. subst p2.
  destruct (handleLogin_valid v c p Hok) as (d & -> & Hd).
  unfold login_resume. cbn [page_tasks].
  rewrite list_lookup_middle by done. rewrite delete_middle, app_nil_r.
  cbn [page_doc page_button page_modal page_toasts page_location
       page_uncaught].
  assert (textContent
            <$> updateStatus "login-status"
                  ("Login failed: " ++ error_message e) d
                !! "login-status"%string
          = (fun _ => ("Login failed: " ++ error_message e)%string)
              <$> page_doc p !! "login-status"%string) as Hstatus.
  { rewrite updateStatus_lookup. case_decide; [| done]. rewrite Hd.
    destruct v; [| | done];
      rewrite updateStatus_lookup; (case_decide; [| done]);
      rewrite login_status_after_submit;
      by destruct (page_doc p !! "login-status"%string). }
  destruct v; [| | done]; rewrite Hauth; unfold login_failed, with_button;
    cbn [page_doc page_button page_modal page_toasts page_location
         page_tasks page_uncaught];
    unfold showToast; rewrite Hcontainer; cbn [bind];
    cbn [page_doc page_button page_modal page_toasts page_location
         page_tasks page_uncaught];
    (split; [by apply setButtonLoading_off |]);
    (split; [done |]); (split; [exact Hstatus |]); done.
Qed.

Lemma login_failure_feedback_witness :
  let p2 := login_resume Fixed 0 [] (handleLogin Fixed login_rejected login_page) in
  page_button p2 = Some (Button false false (Some "false"%string) "")
  /\ toasts (page_toasts p2)
     = [Toast 0 "error" "Invalid credentials. Please check your details."
          false]
  /\ textContent <$> page_doc p2 !! "login-status"%string
     = Some "Login failed: Invalid credentials"%string.
Proof.
  destruct (login_failure_feedback Fixed login_rejected login_page [] []
              (Error "Invalid credentials"))
    as (H1 & H2 & H3 & _); try reflexivity; try discriminate.
  intros p2. split; [exact H1 | split; [exact H2 | exact H3]].
Defined.

(** X21.  The same failure on a page without toast container: the first
    class of [script.js] shows no toast and still writes the status
    region; in the second class [showToast] throws inside the [catch]
    block, so the button is enabled again but the status region keeps
    "Signing in..." and the error is left uncaught. *)
Theorem login_failure_without_container
    (c : gmap string jsval) (p : page) (uuid : jsstring) (e : exn) :
  login_ok c = true ->
  authenticateUser login uuid c = Throw e ->
  toastContainer (page_toasts p) = None ->
  let after v :=
    login_resume v (length (page_tasks p)) uuid (handleLogin v c p) in
  (page_toasts (after Fixed) = page_toasts p
   /\ page_uncaught (after Fixed) = page_uncaught p
   /\ textContent <$> page_doc (after Fixed) !! "login-status"%string
      = (fun _ => ("Login failed: " ++ error_message e)%string)
          <$> page_doc p !! "login-status"%string)
  /\ (page_toasts (after Modern) = page_toasts p
      /\ page_button (after Modern)
         = setButtonLoading Modern false (page_button p)
      /\ page_uncaught (after Modern)
         = page_uncaught p
           ++ [TypeError "Cannot read properties of null"]
      /\ textContent <$> page_doc (after Modern) !! "login-status"%string
         = (fun _ => "Signing in..."%string)
             <$> page_doc p !! "login-status"%string).
Proof.
  intros Hok Hauth Hcontainer after. subst after. cbn beta. split.
  - destruct (handleLogin_valid Fixed c p Hok) as (d & -> & Hd).
    unfold login_resume. cbn [page_tasks].
    rewrite list_lookup_middle by done. rewrite delete_middle, app_nil_r.
    rewrite Hauth. unfold login_failed, with_button.
    cbn [page_doc page_button page_modal page_toasts page_location
         page_tasks page_uncaught].
    unfold showToast. rewrite Hcontainer. cbn [bind].
    cbn [page_doc page_toasts page_uncaught].
    split; [done |]. split; [done |].
    rewrite updateStatus_lookup. case_decide; [| done]. rewrite Hd.
    rewrite updateStatus_lookup. case_decide; [| done].
    rewrite login_status_after_submit.
    by destruct (page_doc p !! "login-status"%string).
  - destruct (handleLogin_valid Modern c p Hok) as (d & -> & Hd).
    unfold login_resume. cbn [page_tasks].
    rewrite list_lookup_middle by done. rewrite delete_middle, app_nil_r.
    rewrite Hauth. unfold login_failed, with_button.
    cbn [page_doc page_button page_modal page_toasts page_location
         page_tasks page_uncaught].
    unfold showToast. rewrite Hcontainer. cbn [bind].
    cbn [page_doc page_button page_toasts page_uncaught].
    split; [done |]. split; [by apply setButtonLoading_off |].
    split; [done |]. rewrite Hd.
    rewrite updateStatus_lookup. case_decide; [| done].
    rewrite login_status_after_submit.
    by destruct (page_doc p !! "login-status"%string).
Qed.

Lemma login_failure_without_container_witness :
  let p :=
    Page (page_doc login_page) (page_button login_page)
      (page_modal login_page) (ToastHost None 0 []) None [] [] in
  page_uncaught
    (login_resume Modern 0 [] (handleLogin Modern login_rejected p))
  = [TypeError "Cannot read properties of null"]
  /\ textContent
       <$> page_doc
             (login_resume Modern 0 [] (handleLogin Modern login_rejected p))
           !! "login-status"%string
     = Some "Signing in..."%string.
Proof.
  intros p.
  destruct (login_failure_without_container login_rejected p []
              (Error "Invalid credentials"))
    as [_ (_ & _ & H3 & H4)]; try reflexivity.
  split; [exact H3 | exact H4].
Defined.

(** X22.  The login handler starts its call only after validation: from
    a page with nothing pending, whatever the events, every call that is
    pending is for a snapshot with an e-mail that matches the pattern and
    a password that is not empty. *)
Theorem login_calls_validated
    (v : variant) (p0 : page) (evs : list page_event) :
  page_tasks p0 = [] ->
  Forall call_validated (page_tasks (page_run v p0 evs)).
Proof.
  intros Hnil. unfold page_run.
  assert (Forall call_validated (page_tasks p0)) as H0 by (by rewrite Hnil).
  revert H0. generalize p0.
  induction evs as [|ev evs IH]; intros p Hp; [done |].
  apply IH. by apply call_validated_step.
Qed.

Lemma login_calls_validated_witness :
  Forall call_validated
    (page_tasks
       (page_run Modern login_page
          [LoginSubmit login_bad_email; LoginSubmit login_valid])).
Proof.
  apply (login_calls_validated Modern login_page
           [LoginSubmit login_bad_email; LoginSubmit login_valid]).
  reflexivity.
Defined.

(** A submit that fails validation changes nothing but the two error
    slots. *)
Lemma handleLogin_invalid_frame v c p :
  login_ok c = false ->
  exists d,
    handleLogin v c p
    = Page d (page_button p) (page_modal p) (page_toasts p)
        (page_location p) (page_tasks p) (page_uncaught p)
    /\ forall j, ~ In j login_slots -> d !! j = page_doc p !! j.
Proof.
  intros Hok. rewrite (handleLogin_invalid v c p Hok).
  eexists. split; [reflexivity |].
  intros j Hj. cbn [login_slots In] in Hj.
  rewrite !write_slot_lookup.
  repeat case_decide; try done; subst; tauto.
Qed.

(** ** Start-up of [script-merged.js] *)

(** X23.  [setup] of [script-merged.js] tests three elements but needs
    five: it ends in the fallback panel, without the "ready" toast,
    exactly when the container, one of the two toggle buttons or one of
    the two forms is missing.  The listeners attached before the failure
    stay: whenever the three tested elements are there, the click
    listeners of the two toggle buttons are attached, also on a page that
    ends in the fallback because a form is missing. *)
Theorem merged_setup_fallback :
  forall sc : scaffold,
    fallback_shown (setup sc) = negb (critical_present sc)
    /\ ready_toast (setup sc) = critical_present sc
    /\ take 2 (listeners (setup sc))
       = if sc_container sc && sc_registerBtn sc && sc_loginBtn sc then
           [(ById "registerBtn", "click"%string);
            (ById "loginBtn", "click"%string)]
         else [].
Proof.
  intros [c rb lb lf rf fp rp cp so tg rq].
  unfold setup, setupEventListeners, critical_present.
  cbn [sc_container sc_registerBtn sc_loginBtn sc_loginForm sc_registerForm
       sc_forgotPassword sc_registerPassword sc_confirmPassword].
  destruct c, rb, lb, lf, rf, fp; repeat split; reflexivity.
Qed.

(** A page without login form: the fallback is shown and the toggle
    buttons are live. *)
Example merged_setup_without_login_form :
  setup (Scaffold true true true false true true true true 2 2 4)
  = Startup [(ById "registerBtn", "click"%string);
             (ById "loginBtn", "click"%string)] true false.
Proof. reflexivity. Qed.

(** ** A failed registration in the first class of [script.js] *)

Lemma register_status_after_validation v userData (d : gmap string element) :
  write_slot v (confirm_ok userData) "confirm-password-error" msg_mismatch
    (write_slot v (password_ok v userData) "register-password-error"
       (password_message v userData)
       (write_slot v (email_ok userData) "register-email-error" msg_email
          (write_slot v (name_ok userData) "name-error" msg_name d)))
  !! "register-status"%string
  = d !! "register-status"%string.
Proof. rewrite !write_slot_lookup. by repeat case_decide. Qed.

(** X24.  In the first class of [script.js] a registration whose call
    fails is reported nowhere: the [catch] block of [handleRegister]
    names [submitBtn], which is declared inside the [try] block, so it
    throws before [handleAuthError] and [updateStatus] run.  After the
    submit and the failure the status region still reads "Creating
    account...", the effects are the validation, the button set loading,
    the call and the uncaught error (the button is not released, nothing
    is shown), and what is pending for the form is the timer that clears
    the flag. *)
Theorem registration_failure_unreported
    (st : mstate) (userData : gmap string jsval) (uuid : jsstring) (e : exn) :
  registrationInProgress st = false ->
  register_ok Fixed userData = true ->
  authenticateUser register uuid userData = Throw e ->
  let st2 :=
    FixedSequencer.resume (length (pending st)) uuid
      (FixedSequencer.handleRegister userData st) in
  textContent <$> doc st2 !! "register-status"%string
  = (fun _ => "Creating account..."%string)
      <$> doc st !! "register-status"%string
  /\ log st2
     = log st
       ++ [EConsoleLog "Handling registration..."; EValidate userData;
           ESetButtonLoading true; EAuthCall userData;
           EUncaught (ReferenceError "submitBtn is not defined")]
  /\ pending st2 = pending st ++ [Timeout 1000 ResetFlag]
  /\ registrationInProgress st2 = true.
Proof.
  intros Hflag Hok Hauth st2. subst st2.
  destruct st as [flag d p l]. cbn [registrationInProgress] in Hflag.
  subst flag. unfold FixedSequencer.handleRegister.
  cbn [registrationInProgress doc pending log].
  rewrite validateRegisterForm_writes, Hok.
  unfold FixedSequencer.resume. cbn [pending].
  rewrite list_lookup_middle by done. rewrite delete_middle, app_nil_r.
  rewrite Hauth. unfold FixedSequencer.catch, FixedSequencer.finally.
  cbn [registrationInProgress doc pending log].
  split; [| split; [| done]].
  - rewrite updateStatus_lookup. case_decide; [| done].
    rewrite register_status_after_validation.
    by destruct (d !! "register-status"%string).
  - by rewrite <- !app_assoc.
Qed.

Lemma registration_failure_unreported_witness :
  let st2 :=
    FixedSequencer.resume 0 []
      (FixedSequencer.handleRegister register_rejected
         (FixedSequencer.init register_status_page)) in
  textContent <$> doc st2 !! "register-status"%string
  = Some "Creating account..."%string
  /\ pending st2 = [Timeout 1000 ResetFlag].
Proof.
  intros st2.
  destruct (registration_failure_unreported
              (FixedSequencer.init register_status_page) register_rejected []
              (Error "Invalid credentials"))
    as (H1 & _ & H3 & _); try reflexivity.
  split; [exact H1 | exact H3].
Defined.
